(** * sbot: blob store, want manager, replicator, signing, SLP encoding

    A shallow embedding of the parts of the Secure Scuttlebutt peer that the
    specification makes claims about, with the claims proved (or refuted at
    concrete inputs) against the embedded code.

    Go values are modelled as follows.
    - [[]byte] is [list byte] (the 256-constructor type of the standard
      library), [len] is [length], [append] is [++].
    - [int64] is [Z] with the wrap-around of the machine written out
      ([wrap64]); [uint16] is [N] reduced modulo 2^16.
    - [map[string]int64] is [gmap string Z]; a Go [error] result is the
      [Err] case of [Result].
    - mutable receivers are explicit states passed in and out. *)

From Stdlib Require Import ZArith NArith Lia List Bool.
From Stdlib Require Import Strings.Byte Strings.Ascii Strings.String.
From stdpp Require Import base gmap strings list pretty.

Local Open Scope N_scope.

(** ** Results of fallible calls *)

Inductive Result (E A : Type) : Type :=
| Ok (a : A)
| Err (e : E).
Arguments Ok {E A} a.
Arguments Err {E A} e.

(** ** Bytes *)

(** The Go conversion [byte(v)] of an unsigned integer: the low 8 bits. *)
Definition byte_of_N (v : N) : byte :=
  match Byte.of_N (v mod 256) with
  | Some b => b
  | None => x00
  end.

(** ** Errors *)

(** Go [error] values: the sentinels the code compares against, leaf errors
    of the operating system or of a library, and [fmt.Errorf("...: %w", err)]
    / [errors.Wrap(err, "...")] wrapping. *)
Inductive error : Type :=
| ErrNoSuchBlob
| ErrNulled
| ErrMsg (msg : string)
| ErrWrap (msg : string) (cause : error).

(** ** ssb-refs: blob references *)

Module refs.

Record BlobRef : Type := mkBlobRef { Hash : list byte; Algo : string }.

Definition RefAlgoBlobSSB1 : string := "sha256".

(** Modelled from the spec: [BlobRef.IsValid] of the ssb-refs library is not
    among the sources; a blob reference is "(algorithm = sha256, 32-byte
    digest)". *)
Definition IsValid (ref : BlobRef) : Result error unit :=
  if negb (String.eqb (Algo ref) RefAlgoBlobSSB1) then Err (ErrMsg "unknown hash algorithm")
  else if negb (Nat.eqb (length (Hash ref)) 32) then Err (ErrMsg "wrong hash length")
  else Ok tt.

End refs.

(** ** encoding/hex and path/filepath *)

Definition hexdigit (n : N) : ascii :=
  match n with
  | 0 => "0" | 1 => "1" | 2 => "2" | 3 => "3" | 4 => "4" | 5 => "5"
  | 6 => "6" | 7 => "7" | 8 => "8" | 9 => "9" | 10 => "a" | 11 => "b"
  | 12 => "c" | 13 => "d" | 14 => "e" | _ => "f"
  end%char.

(** [hex.EncodeToString]: two lower-case digits per byte, high nibble first
    ([hextable[v>>4]], [hextable[v&0x0f]]). *)
Fixpoint hex_EncodeToString (src : list byte) : string :=
  match src with
  | [] => EmptyString
  | v :: rest =>
      String (hexdigit (N.shiftr (Byte.to_N v) 4))
        (String (hexdigit (N.land (Byte.to_N v) 15)) (hex_EncodeToString rest))
  end.

(** A path is kept as the sequence of elements handed to [filepath.Join];
    the separator is not materialised. *)
Abbreviation path := (list string).

Definition filepath_Join (elems : list string) : path := elems.

(** ** blobstore/store.go and the want manager *)

Module blobstore.
Import refs.

Inductive BlobStoreOp : Type := BlobStoreOpPut | BlobStoreOpRm.

#[global] Instance BlobStoreOp_eq_dec : EqDecision BlobStoreOp.
Proof. solve_decision. Defined.

Record BlobStoreNotification : Type :=
  mkNotification { Op : BlobStoreOp; NRef : BlobRef }.

(** [want]: a reference with its distance (negative) or size (non-negative). *)
Record want : Type := mkWant { WRef : BlobRef; Dist : Z }.

(** Sinks registered on the store's change broadcast. *)
Inductive Subscriber : Type := WantManagerSink.

#[global] Instance Subscriber_eq_dec : EqDecision Subscriber.
Proof. solve_decision. Defined.

(** The blob store together with the want manager that holds it: the files
    below [basePath], the sinks registered on [bs.Changes()] and the values
    poured into it so far, [wmgr.wants], and the values poured into
    [wmgr.wantSink]. *)
Record World : Type := mkWorld {
  basePath : string;
  files : gmap path (list byte);
  sinks : list Subscriber;
  changes : list BlobStoreNotification;
  wants : gmap string Z;
  wantBcast : list want;
}.

Definition set_files (f : gmap path (list byte)) (w : World) : World :=
  mkWorld (basePath w) f (sinks w) (changes w) (wants w) (wantBcast w).
Definition set_sinks (s : list Subscriber) (w : World) : World :=
  mkWorld (basePath w) (files w) s (changes w) (wants w) (wantBcast w).
Definition set_changes (c : list BlobStoreNotification) (w : World) : World :=
  mkWorld (basePath w) (files w) (sinks w) c (wants w) (wantBcast w).
Definition set_wants (m : gmap string Z) (w : World) : World :=
  mkWorld (basePath w) (files w) (sinks w) (changes w) m (wantBcast w).
Definition set_wantBcast (b : list want) (w : World) : World :=
  mkWorld (basePath w) (files w) (sinks w) (changes w) (wants w) b.

(** How the stream handed to [Put] ends: end of file, luigi's end of
    stream (which [Put] tolerates), or a read error. *)
Inductive ReadEnd : Type := EOF | EOS | ReadErr (e : error).

(** An [io.Reader]: the bytes it delivers, then how it ends. *)
Record Reader : Type := mkReader { data : list byte; ending : ReadEnd }.

(** Outcome of [os.MkdirAll]. *)
Inductive MkdirOutcome : Type := MkdirOk | MkdirExists | MkdirFail (e : error).

(** What the operating system and the other subscribers answer during one
    call of [Put]; [None] is success. *)
Record Env : Type := mkEnv {
  now : Z;                          (* time.Now().UnixNano() *)
  create_err : option error;        (* os.Create *)
  close_err : option error;         (* f.Close *)
  mkdir : MkdirOutcome;             (* os.MkdirAll *)
  rename_err : option error;        (* os.Rename *)
  notify_err : option error;        (* error of a sink other than the want manager's *)
}.

Section Store.

(** [crypto/sha256] and [BlobRef.Ref()] (the string form of a reference) are
    library code; the store is parametric in both. *)
Variable sha256 : list byte → list byte.
Variable Ref : BlobRef → string.

Definition New (basePath : string) : World :=
  mkWorld basePath ∅ [] [] ∅ [].

Definition getPath (store : World) (ref : BlobRef) : Result error path :=
  match IsValid ref with
  | Err err => Err (ErrWrap "blobs: invalid reference" err)
  | Ok _ =>
      let hexHash := hex_EncodeToString (Hash ref) in
      let relPath :=
        filepath_Join [Algo ref; substring 0 2 hexHash;
                       substring 2 (String.length hexHash - 2) hexHash] in
      Ok (filepath_Join (basePath store :: relPath))
  end.

Definition getHexDirPath (store : World) (ref : BlobRef) : Result error path :=
  match IsValid ref with
  | Err err => Err (ErrWrap "blobs: invalid reference" err)
  | Ok _ =>
      let hexHash := hex_EncodeToString (Hash ref) in
      let relPath := filepath_Join [Algo ref; substring 0 2 hexHash] in
      Ok (filepath_Join (basePath store :: relPath))
  end.

Definition getTmpPath (store : World) (nanos : Z) : path :=
  filepath_Join [basePath store; "tmp"; pretty nanos].

(** [Get]: the file's bytes stand for the opened file. *)
Definition Get (store : World) (ref : BlobRef) : Result error (list byte) :=
  match getPath store ref with
  | Err err => Err (ErrWrap "error getting path for ref" err)
  | Ok blobPath =>
      match files store !! blobPath with
      | None => Err ErrNoSuchBlob
      | Some f => Ok f
      end
  end.

Definition Size (store : World) (ref : BlobRef) : Result error Z :=
  match getPath store ref with
  | Err err => Err (ErrWrap "error getting path" err)
  | Ok blobPath =>
      match files store !! blobPath with
      | None => Err ErrNoSuchBlob
      | Some f => Ok (Z.of_nat (length f))
      end
  end.

(** The sink that [NewWantManager] registers on [bs.Changes()]. *)
Definition wantManager_onChange (n : BlobStoreNotification) (w : World) : World :=
  match Op n with
  | BlobStoreOpPut =>
      match wants w !! Ref (NRef n) with
      | Some _ => set_wants (delete (Ref (NRef n)) (wants w)) w
      | None => w
      end
  | BlobStoreOpRm => w
  end.

Definition deliver (n : BlobStoreNotification) (w : World) (s : Subscriber) : World :=
  match s with
  | WantManagerSink => wantManager_onChange n w
  end.

(** [store.sink.Pour]: the value goes to every registered sink; [other] is
    what the sinks that are not modelled answer. *)
Definition sink_Pour (other : option error) (n : BlobStoreNotification) (w : World)
  : World * Result error unit :=
  let w := set_changes (changes w ++ [n]) w in
  let w := fold_left (deliver n) (sinks w) w in
  (w, match other with None => Ok tt | Some e => Err e end).

Definition NewWantManager (bs : World) : World :=
  set_sinks (sinks bs ++ [WantManagerSink]) (set_wantBcast [] (set_wants ∅ bs)).

Definition Put (env : Env) (blob : Reader) (store : World)
  : World * Result error BlobRef :=
  let tmpPath := getTmpPath store (now env) in
  match create_err env with
  | Some err => (store, Err (ErrWrap "blobstore.Put: error creating tmp file" err))
  | None =>
      (* io.Copy(io.MultiWriter(f, h), blob) *)
      let store := set_files (<[tmpPath := data blob]> (files store)) store in
      match ending blob with
      | ReadErr err => (store, Err (ErrWrap "blobstore.Put: error copying" err))
      | _ =>
          let ref := mkBlobRef (sha256 (data blob)) "sha256" in
          match close_err env with
          | Some err => (store, Err (ErrWrap "blobstore.Put: error closing tmp file" err))
          | None =>
              match getHexDirPath store ref with
              | Err err =>
                  (store, Err (ErrWrap "blobstore.Put: error getting hex dir path" err))
              | Ok hexDirPath =>
                  match mkdir env with
                  | MkdirFail err =>
                      (store, Err (ErrWrap "blobstore.Put: error creating hex dir" err))
                  | _ =>
                      match getPath store ref with
                      | Err err =>
                          (store, Err (ErrWrap "blobstore.Put: error getting final path" err))
                      | Ok finalPath =>
                          match rename_err env with
                          | Some err =>
                              (store, Err (ErrWrap "error moving blob from temp path to final path" err))
                          | None =>
                              let store :=
                                set_files (<[finalPath := data blob]>
                                             (delete tmpPath (files store))) store in
                              match sink_Pour (notify_err env)
                                      (mkNotification BlobStoreOpPut ref) store with
                              | (store, Err err) =>
                                  (store, Err (ErrWrap "blobstore.Put: error in notification handler" err))
                              | (store, Ok _) => (store, Ok ref)
                              end
                          end
                      end
                  end
              end
          end
      end
  end.

Definition Delete (notify : option error) (ref : BlobRef) (store : World)
  : World * Result error unit :=
  match getPath store ref with
  | Err err => (store, Err (ErrWrap "error getting blob path" err))
  | Ok p =>
      match files store !! p with
      | None => (store, Err ErrNoSuchBlob)
      | Some _ =>
          let store := set_files (delete p (files store)) store in
          match sink_Pour notify (mkNotification BlobStoreOpRm ref) store with
          | (store, Err err) =>
              (store, Err (ErrWrap "error in delete notification handlers" err))
          | (store, Ok _) => (store, Ok tt)
          end
      end
  end.

(** *** wantManager *)

Definition Wants (wmgr : World) (ref : BlobRef) : bool :=
  match wants wmgr !! Ref ref with
  | Some _ => true
  | None => false
  end.

Definition WantWithDist (ref : BlobRef) (dist : Z) (wmgr : World)
  : World * Result error unit :=
  match Get wmgr ref with
  | Ok f => (wmgr, Ok tt)                      (* return f.(io.Closer).Close() *)
  | Err _ =>
      let wmgr := set_wants (<[Ref ref := dist]> (wants wmgr)) wmgr in
      let wmgr := set_wantBcast (wantBcast wmgr ++ [mkWant ref dist]) wmgr in
      (wmgr, Ok tt)                            (* errors.Wrap(nil, ...) is nil *)
  end.

Definition Want (ref : BlobRef) (wmgr : World) : World * Result error unit :=
  WantWithDist ref (-1) wmgr.

(** *** Invariants of the store, as predicates *)

(** Every visible blob path holds bytes whose SHA-256 is the reference. *)
Definition visible_ok (store : World) : Prop :=
  ∀ ref p stored,
    getPath store ref = Ok p → files store !! p = Some stored →
    sha256 stored = Hash ref.

(** A blob that is in the store is not wanted. *)
Definition present_not_wanted (w : World) : Prop :=
  ∀ ref f, Get w ref = Ok f → wants w !! Ref ref = None.

(** *** wantProc *)

(** [int64] arithmetic wraps around. *)
Definition wrap64 (z : Z) : Z := ((z + 2 ^ 63) mod 2 ^ 64 - 2 ^ 63)%Z.

(** A [wantProc]: [remoteWants], the maps poured into [out] so far, and the
    references for which [Pour] has started a [blobs.get] goroutine. *)
Record wantProc : Type := mkProc {
  remoteWants : gmap string Z;
  out : list (gmap string Z);
  fetching : list BlobRef;
}.

(** The [for _, w := range *mIn] loop of [wantProc.Pour], with its early
    return. *)
Fixpoint Pour_loop (wmgr : World) (mIn : list want) (proc : wantProc)
    (mOut : gmap string Z) : wantProc * Result error (gmap string Z) :=
  match mIn with
  | [] => (proc, Ok mOut)
  | w :: rest =>
      if (Dist w <? 0)%Z then
        match Size wmgr (WRef w) with
        | Err ErrNoSuchBlob =>
            Pour_loop wmgr rest
              (mkProc (<[Ref (WRef w) := wrap64 (Dist w - 1)]> (remoteWants proc))
                      (out proc) (fetching proc))
              mOut
        | Err err => (proc, Err (ErrWrap "error getting blob size" err))
        | Ok s =>
            Pour_loop wmgr rest
              (mkProc (delete (Ref (WRef w)) (remoteWants proc))
                      (out proc) (fetching proc))
              (<[Ref (WRef w) := s]> mOut)
        end
      else if Wants wmgr (WRef w) then
        Pour_loop wmgr rest
          (mkProc (remoteWants proc) (out proc) (fetching proc ++ [WRef w])) mOut
      else Pour_loop wmgr rest proc mOut
  end.

(** [wantProc.Pour]: nothing is poured into [out] when [mOut] is empty. *)
Definition Pour (wmgr : World) (mIn : list want) (proc : wantProc)
  : wantProc * Result error unit :=
  match Pour_loop wmgr mIn proc ∅ with
  | (proc, Err err) => (proc, Err err)
  | (proc, Ok mOut) =>
      if Nat.eqb (size mOut) 0 then (proc, Ok tt)
      else (mkProc (remoteWants proc) (out proc ++ [mOut]) (fetching proc), Ok tt)
  end.

End Store.

End blobstore.

(** ** multilogs/userfeeds.go *)

Module multilogs.

(** A feed reference, identified by its wire string. *)
Abbreviation FeedRef := string.

Record Message : Type := mkMessage {
  Author : option FeedRef;            (* nil or the author *)
  MsgSeq : Z;
}.

(** The [interface{}] value of a log entry. *)
Inductive value : Type :=
| VError (e : error)
| VMessage (m : Message)
| VOther (typeName : string).

(** [errors.Cause]: the innermost wrapped error. *)
Fixpoint Cause (e : error) : error :=
  match e with
  | ErrWrap _ c => Cause c
  | _ => e
  end.

(** [margaret.IsErrNulled]: the error, unwrapped, is the [ErrNulled] sentinel. *)
Definition IsErrNulled (e : error) : bool :=
  match Cause e with
  | ErrNulled => true
  | _ => false
  end.

(** A multilog: sublogs of receive sequences by address. *)
Record MultiLog : Type := mkMultiLog {
  sublogs : gmap string (list Z);
  get_err : option error;             (* what [mlog.Get] answers *)
  append_err : option error;          (* what [sublog.Append] answers *)
}.

Section UserFeeds.

Variable StoredAddr : FeedRef → string.

Definition UserFeedsUpdate (seq : Z) (v : value) (mlog : MultiLog)
  : MultiLog * Result error unit :=
  match v with
  | VError nulled =>
      if IsErrNulled nulled then (mlog, Ok tt) else (mlog, Err nulled)
  | VOther ty => (mlog, Err (ErrMsg "error casting message"))
  | VMessage abstractMsg =>
      match Author abstractMsg with
      | None => (mlog, Err (ErrMsg "nil author on message?!"))
      | Some author =>
          match get_err mlog with
          | Some err => (mlog, Err (ErrWrap "error opening sublog" err))
          | None =>
              match append_err mlog with
              | Some err => (mlog, Err (ErrWrap "error appending new author message" err))
              | None =>
                  let addr := StoredAddr author in
                  let authorLog := default [] (sublogs mlog !! addr) in
                  (mkMultiLog (<[addr := authorLog ++ [seq]]> (sublogs mlog))
                              (get_err mlog) (append_err mlog), Ok tt)
              end
          end
      end
  end.

End UserFeeds.

End multilogs.

(** ** sbot/replicate.go *)

Module replicate.

Abbreviation FeedRef := string.

(** Modelled from the spec: [ssb.StrFeedSet] is not among the sources; the
    replicator "maintains two mutable sets" of feed references.  [List]
    enumerates the set (its error, a stored key that does not decode, cannot
    arise for a set of references). *)
Abbreviation StrFeedSet := (gset FeedRef).

Definition NewFeedSet : StrFeedSet := ∅.
Definition AddRef (ref : FeedRef) (fs : StrFeedSet) : StrFeedSet := {[ref]} ∪ fs.
Definition Delete (ref : FeedRef) (fs : StrFeedSet) : StrFeedSet := fs ∖ {[ref]}.
Definition Has (fs : StrFeedSet) (ref : FeedRef) : bool := bool_decide (ref ∈ fs).
Definition Count (fs : StrFeedSet) : nat := size fs.
Definition List (fs : StrFeedSet) : Result error (list FeedRef) := Ok (elements fs).

(** [graph.Graph] and [graph.Builder], the interfaces the replicator calls. *)
Record Graph : Type := mkGraph {
  BlockedList : FeedRef → StrFeedSet;
}.

Record Builder : Type := mkBuilder {
  Hops : FeedRef → Z → StrFeedSet;
  Build : Result error Graph;
}.

Record lister : Type := mkLister {
  feedWants : StrFeedSet;
  blocked : StrFeedSet;
}.

Definition newLister : lister := mkLister NewFeedSet NewFeedSet.

(** The function returned by [makeUpdater], acting on [r.current]. *)
Definition update (builder : Builder) (self : FeedRef) (hopCount : Z)
    (current : lister) : lister :=
  let newWants := Hops builder self hopCount in
  match List newWants with
  | Err _ => current
  | Ok refs =>
      let current :=
        fold_left (fun c ref => mkLister (AddRef ref (feedWants c)) (blocked c))
                  refs current in
      (* make sure we dont fetch and allow blocked feeds *)
      match Build builder with
      | Err _ => current
      | Ok g =>
          let current := mkLister (feedWants current) (BlockedList g self) in
          match List (blocked current) with
          | Ok lst =>
              fold_left (fun c bf => mkLister (Delete bf (feedWants c)) (blocked c))
                        lst current
          | Err _ => current
          end
      end
  end.

Definition Block (ref : FeedRef) (l : lister) : lister :=
  mkLister (feedWants l) (AddRef ref (blocked l)).
Definition Unblock (ref : FeedRef) (l : lister) : lister :=
  mkLister (feedWants l) (Delete ref (blocked l)).
Definition Replicate (ref : FeedRef) (l : lister) : lister :=
  mkLister (AddRef ref (feedWants l)) (blocked l).
Definition DontReplicate (ref : FeedRef) (l : lister) : lister :=
  mkLister (Delete ref (feedWants l)) (blocked l).

Definition Authorize (l : lister) (remote : FeedRef) : Result error unit :=
  if Has (blocked l) remote then Err (ErrMsg "peer blocked")
  else if Has (feedWants l) remote then Ok tt
  else Err (ErrMsg "nope - access denied").

(** *** debounce *)

(** [margaret.SeqEmpty]. *)
Definition SeqEmpty : Z := (-1)%Z.

(** The interval [newGraphReplicator] passes: [15*time.Second], in
    nanoseconds. *)
Definition updateInterval : Z := (15 * 1000000000)%Z.

(** The loop state of [debounce]: the last sequence seen, the instant the
    timer is armed for (if it is), and the state [work] acts on. *)
Record debounceState : Type := mkDebounce {
  seq : Z;
  timer : option Z;
  current : lister;
}.

Inductive debounceEvent : Type :=
| Observed (newSeq : Z) (at_ns : Z)   (* the observable delivers a value *)
| TimerFired.                         (* <-timer.C *)

Definition debounce_init (interval start : Z) (l : lister) : debounceState :=
  mkDebounce SeqEmpty (Some (start + interval)%Z) l.

Definition debounce_step (interval : Z) (work : lister → lister)
    (st : debounceState) (ev : debounceEvent) : debounceState :=
  match ev with
  | Observed newSeq at_ns =>
      mkDebounce newSeq (Some (at_ns + interval)%Z) (current st)
  | TimerFired =>
      match timer st with
      | None => st
      | Some _ =>
          if Z.eqb (seq st) SeqEmpty then mkDebounce (seq st) None (current st)
          else mkDebounce SeqEmpty None (work (current st))
      end
  end.

(** [newGraphReplicator]: the updater runs under [debounce] with the fixed
    interval. *)
Definition replicator_step (builder : Builder) (self : FeedRef) (hopCount : Z)
  : debounceState → debounceEvent → debounceState :=
  debounce_step updateInterval (update builder self hopCount).

End replicate.

(** ** sbot/manifest.go and the plugin registrations of sbot/new.go *)

Module manifest.

(** The manifest is a JSON object of strings and nested objects; it is kept
    here in parsed form, fields in the order of the text. *)
#[local] Unset Elimination Schemes.
Inductive JSON : Type :=
| JString (s : string)
| JObject (fields : list (string * JSON)).
#[local] Set Elimination Schemes.

Definition manifestBlob : JSON :=
  JObject [
    ("auth", JString "async");
    ("address", JString "sync");
    ("manifest", JString "sync");
    ("multiserverNet", JObject []);
    ("get", JString "async");
    ("createFeedStream", JString "source");
    ("createUserStream", JString "source");
    ("createWriteStream", JString "sink");
    ("links", JString "source");
    ("add", JString "async");
    ("getLatest", JString "async");
    ("latest", JString "source");
    ("latestSequence", JString "async");
    ("createSequenceStream", JString "source");
    ("createLogStream", JString "source");
    ("messagesByType", JString "source");
    ("createHistoryStream", JString "source");
    ("ebt", JObject [("replicate", JString "duplex")]);
    ("partialReplication", JObject [
       ("getFeed", JString "source");
       ("getFeedReverse", JString "source");
       ("getTangle", JString "async");
       ("getMessagesOfType", JString "source")]);
    ("private", JObject [("read", JString "source")]);
    ("tangles", JString "source");
    ("names", JObject [
       ("get", JString "async");
       ("getImageFor", JString "async");
       ("getSignifier", JString "async")]);
    ("friends", JObject [
       ("isFollowing", JString "async");
       ("isBlocking", JString "async")]);
    ("publish", JString "async");
    ("whoami", JString "sync");
    ("status", JString "sync");
    ("gossip", JObject [
       ("connect", JString "async");
       ("ping", JString "duplex")]);
    ("replicate", JObject [("upto", JString "source")]);
    ("blobs", JObject [
       ("get", JString "source");
       ("add", JString "sink");
       ("rm", JString "async");
       ("ls", JString "source");
       ("has", JString "async");
       ("size", JString "async");
       ("want", JString "async");
       ("createWants", JString "source")])
  ].

(** A [muxrpc.Method] is a list of name parts. *)
Abbreviation Method := (list string).

(** The entry of the manifest for a method, if it has one. *)
Fixpoint manifest_entry (m : Method) (j : JSON) : option JSON :=
  match m with
  | [] => Some j
  | k :: rest =>
      match j with
      | JString _ => None
      | JObject fields =>
          (fix find (fs : list (string * JSON)) : option JSON :=
             match fs with
             | [] => None
             | (k', v) :: fs' =>
                 if String.eqb k k' then manifest_entry rest v else find fs'
             end) fields
      end
  end.

(** The kind a client reads from the manifest for a method. *)
Definition manifest_kind (m : Method) : option string :=
  match manifest_entry m manifestBlob with
  | Some (JString kind) => Some kind
  | _ => None
  end.

(** [manifestHandler.HandleCall] returns the blob whatever the request. *)
Definition manifestHandler_HandleCall (h : JSON) (req : Method) : JSON := h.

(** A plugin: its method prefix and the calls its handler answers, by kind. *)
Record Plugin : Type := mkPlugin {
  PName : string;
  PMethod : Method;
  handles : list (Method * string);
}.

(** [groups.New]: three async handlers below the method [groups]. *)
Definition groups_method : Method := ["groups"].
Definition groups_New : Plugin :=
  mkPlugin "groups" groups_method
    [ (groups_method ++ ["create"], "async");
      (groups_method ++ ["publishTo"], "async");
      (groups_method ++ ["invite"], "async") ].

(** The [namedPlugin] that serves the manifest. *)
Definition manifest_plugin : Plugin :=
  mkPlugin "manifest" ["manifest"] [ (["manifest"], "sync") ].

(** The plugins [initSbot] registers on [s.master] whose handlers are among
    the sources (the others are registered from packages that are not). *)
Definition master_registered : list Plugin := [groups_New; manifest_plugin].

Definition supported (mux : list Plugin) : list (Method * string) :=
  concat (map handles mux).

(** The call the command line client makes: [friends.hops], as a source. *)
Definition friendsHopsCmd_call : Method * string := (["friends"; "hops"], "source").

End manifest.

(** ** message/legacy/types.go *)

Module legacy.

Record MessageRef : Type := mkMessageRef { MHash : list byte; MAlgo : string }.

Section Sign.

(** Library code the signing path calls: the JSON encoder, the
    order-preserving pretty printer, the v8 escape transform, HMAC
    ([auth.Sum]), Ed25519, the signature encoding and SHA-256; and the
    algorithm constant of the references library. *)
Variable Content : Type.
Variable PrivateKey : Type.
Variable Signature : Type.

Record LegacyMessage : Type := mkLegacyMessage {
  Previous : option MessageRef;
  Author : string;
  Sequence : Z;
  Timestamp : Z;
  Hash : string;
  MsgContent : Content;
}.

Record SignedLegacyMessage : Type := mkSignedLegacyMessage {
  Legacy : LegacyMessage;
  MsgSignature : Signature;
}.

(** The [interface{}] argument of [jsonAndPreserve]. *)
Inductive anyMessage : Type :=
| Unsigned (m : LegacyMessage)
| Signed (m : SignedLegacyMessage).

Variable json_Encode : anyMessage → Result error (list byte).
Variable EncodePreserveOrder : list byte → Result error (list byte).
Variable InternalV8Binary : list byte → Result error (list byte).
Variable auth_Sum : list byte → list byte → list byte.
Variable ed25519_Sign : PrivateKey → list byte → list byte.
Variable EncodeSignature : list byte → Signature.
Variable sha256 : list byte → list byte.
Variable RefAlgoMessageSSB1 : string.

Definition jsonAndPreserve (msg : anyMessage) : Result error (list byte) :=
  match json_Encode msg with
  | Err err => Err (ErrWrap "jsonAndPreserve: 1st-pass json flattning failed" err)
  | Ok buf =>
      (* pretty-print v8-like *)
      match EncodePreserveOrder buf with
      | Err err => Err (ErrWrap "jsonAndPreserve: preserver order failed" err)
      | Ok pp => Ok pp
      end
  end.

Definition Sign (msg : LegacyMessage) (priv : PrivateKey)
    (hmacSecret : option (list byte)) : Result error (MessageRef * list byte) :=
  match jsonAndPreserve (Unsigned msg) with
  | Err err => Err (ErrWrap "legacySign: error during sign prepare" err)
  | Ok pp =>
      let pp := match hmacSecret with
                | Some secret => auth_Sum pp secret
                | None => pp
                end in
      let sig := ed25519_Sign priv pp in
      let signedMsg := mkSignedLegacyMessage msg (EncodeSignature sig) in
      (* encode again, now with the signature to get the hash of the message *)
      match jsonAndPreserve (Signed signedMsg) with
      | Err err => Err (ErrWrap "legacySign: error re-encoding signed message" err)
      | Ok ppWithSig =>
          match InternalV8Binary ppWithSig with
          | Err err => Err (ErrWrap "legacySign: could not v8 escape message" err)
          | Ok v8warp =>
              let mr := mkMessageRef (sha256 v8warp) RefAlgoMessageSSB1 in
              Ok (mr, ppWithSig)
          end
      end
  end.

(** What is handed to Ed25519: the canonical bytes, or their MAC when an
    HMAC key is configured. *)
Definition toBeSigned (pp : list byte) (hmacSecret : option (list byte)) : list byte :=
  match hmacSecret with
  | Some secret => auth_Sum pp secret
  | None => pp
  end.

End Sign.

End legacy.

(** ** plugins2/names/getSignifier.go *)

Module names.

Abbreviation FeedRef := string.

(** An attribute of the about aggregation: the value its subject chose and
    the values others prescribed, with their counts. *)
Record AboutAttribute : Type := mkAttribute {
  Chosen : string;
  Prescribed : gmap string Z;
}.

Record AboutInfo : Type := mkAboutInfo {
  Name : AboutAttribute;
  Description : AboutAttribute;
  Image : AboutAttribute;
}.

(** [for n := range m { ...; break }]: Go visits the keys of a map in an
    order of its choosing; [pick] stands for that choice. *)
Definition range_first (pick : nat) (m : gmap string Z) : option string :=
  let keys := (map_to_list m).*1 in
  keys !! (pick mod length keys)%nat.

Section GetSignifier.

Variable Request : Type.
Variable parseFeedRefFromArgs : Request → Result error FeedRef.
(** [h.as.CollectedFor] and [ref.Ref()]. *)
Variable CollectedFor : FeedRef → Result error AboutInfo.
Variable Ref : FeedRef → string.

Definition HandleAsync (pick : nat) (req : Request) : Result error string :=
  match parseFeedRefFromArgs req with
  | Err err => Err err
  | Ok ref =>
      match CollectedFor ref with
      | Err err => Err (ErrWrap "do not have about for" err)
      | Ok ai =>
          let name := Chosen (Name ai) in
          if String.eqb name EmptyString then
            let name :=
              match range_first pick (Prescribed (Name ai)) with  (* pick random name *)
              | Some n => n
              | None => name
              end in
            if String.eqb name EmptyString then Ok (Ref ref) else Ok name
          else Ok name
      end
  end.

End GetSignifier.

End names.

(** ** Stand-ins for running the code on concrete inputs *)

(** A 32-byte digest that is not SHA-256: the first 32 bytes of the input,
    padded with zeros.  It only serves to evaluate the store. *)
Definition example_digest (b : list byte) : list byte :=
  take 32 (b ++ replicate 32 x00).

(** A string form of a blob reference: sigil, hex digest, algorithm. *)
Definition example_Ref (ref : refs.BlobRef) : string :=
  String.append "&" (String.append (hex_EncodeToString (refs.Hash ref))
                       (String.append "." (refs.Algo ref))).

Definition example_env : blobstore.Env :=
  blobstore.mkEnv 1589191800000000000 None None blobstore.MkdirOk None None.

Definition example_blob : blobstore.Reader :=
  blobstore.mkReader [x68; x69] blobstore.EOF.

Definition example_ref : refs.BlobRef :=
  refs.mkBlobRef (example_digest [x68; x69]) "sha256".

(** A fresh store with its want manager, wanting the example blob. *)
Definition example_world : blobstore.World :=
  (blobstore.Want example_Ref example_ref
     (blobstore.NewWantManager (blobstore.New "repo/blobs"))).1.

(** The same world once the example blob has been put. *)
Definition example_world_put : blobstore.World :=
  (blobstore.Put example_digest example_Ref example_env example_blob example_world).1.

(** A reference to a blob the store does not have, and a want message
    asking for both. *)
Definition example_absent_ref : refs.BlobRef :=
  refs.mkBlobRef (replicate 32 x01) "sha256".

Definition example_msg : list blobstore.want :=
  [blobstore.mkWant example_ref (-1); blobstore.mkWant example_absent_ref (-2)].

Definition example_proc : blobstore.wantProc := blobstore.mkProc ∅ [] [].

(** Two graphs for the replicator: in the first the node follows [@bob];
    in the second it follows nobody any more.  Nobody is blocked. *)
Definition example_follow_bob : replicate.Builder :=
  replicate.mkBuilder (λ _ _, {["@bob"]}) (Ok (replicate.mkGraph (λ _, ∅))).

Definition example_follow_nobody : replicate.Builder :=
  replicate.mkBuilder (λ _ _, ∅) (Ok (replicate.mkGraph (λ _, ∅))).

(** The lister after a recomputation on the first graph and another on the
    second. *)
Definition example_lister : replicate.lister :=
  replicate.update example_follow_nobody "@self" 2
    (replicate.update example_follow_bob "@self" 2 replicate.newLister).

(** Stand-ins for the library code of the signing path: the encoder
    writes one byte that tells whether the message carries a signature, the
    pretty printer and the escape transform each append a byte, the MAC and
    the signature prepend one. *)
Definition example_json_Encode (m : legacy.anyMessage unit (list byte))
  : Result error (list byte) :=
  match m with
  | legacy.Unsigned _ _ _ => Ok [x7b]
  | legacy.Signed _ _ s => Ok (x7b :: legacy.MsgSignature _ _ s)
  end.

Definition example_message : legacy.LegacyMessage unit :=
  legacy.mkLegacyMessage unit None "@alice" 1 1589191800000 "sha256" tt.

Definition example_Sign (hmacSecret : option (list byte))
  : Result error (legacy.MessageRef * list byte) :=
  legacy.Sign unit (list byte) (list byte)
    example_json_Encode
    (λ b, Ok (b ++ [x0a]))            (* EncodePreserveOrder *)
    (λ b, Ok (b ++ [x00]))            (* InternalV8Binary *)
    (λ pp secret, x4d :: secret)      (* auth.Sum *)
    (λ priv pp, x53 :: priv ++ pp)    (* ed25519.Sign *)
    (λ sig, sig)                      (* EncodeSignature *)
    example_digest "ssb1"
    example_message [x01] hmacSecret.

(** An about record whose subject chose a name and for whom another author
    prescribed a different one. *)
Definition example_about : names.AboutInfo :=
  names.mkAboutInfo
    (names.mkAttribute "N1" {["N2" := 1%Z]})
    (names.mkAttribute EmptyString ∅)
    (names.mkAttribute EmptyString ∅).

Definition example_getSignifier (pick : nat) : Result error string :=
  names.HandleAsync string (λ req, Ok req) (λ _, Ok example_about) (λ ref, ref)
    pick "@alice".

(** ** private/box2/encoding.go *)

Module box2.

(** [uint16(n)] for a non-negative [int]. *)
Definition uint16 (n : N) : N := n mod 65536.

(** [binary.LittleEndian.PutUint16(buf[:], l)]:
    [buf[0] = byte(l)], [buf[1] = byte(l >> 8)]. *)
Definition PutUint16 (l : N) : list byte :=
  [byte_of_N l; byte_of_N (N.shiftr l 8)].

(** [encodeUint16] appends the two bytes to [out]. *)
Definition encodeUint16 (out : list byte) (l : N) : list byte :=
  out ++ PutUint16 l.

(** [EncodeSLP]: the loop over the variadic [list] argument, threading [out]. *)
Definition EncodeSLP (out : list byte) (elems : list (list byte)) : list byte :=
  fold_left
    (fun out elem =>
       let out := encodeUint16 out (uint16 (N.of_nat (length elem))) in
       out ++ elem)
    elems out.

(** What the claim describes for one element: its length as two bytes,
    least significant first, then the element. *)
Definition le16_value (b0 b1 : byte) : N := Byte.to_N b0 + 256 * Byte.to_N b1.

Definition slp_frame (elem : list byte) : list byte :=
  let n := N.of_nat (length elem) in
  byte_of_N (n mod 256) :: byte_of_N (n / 256) :: elem.

End box2.

(** ** private/box2/encoding.go: key derivation *)

Module box2_derive.
Import box2.

Section DeriveTo.

(** [hkdf.Expand(sha256.New, key, info)] followed by one [Read] into a
    buffer of the given length: the bytes read and the error, if any. *)
Variable hkdf_Read : list byte → list byte → nat → list byte * option error.

(** [DeriveTo]: the buffer [out] is passed in and out; [Read] overwrites
    its first bytes with the bytes read. *)
Definition DeriveTo (out key : list byte) (infos : list (list byte))
  : list byte * Result error unit :=
  let n := length out in
  if negb (Nat.eqb n 32) then
    (out, Err (ErrMsg "box2: expected 32bytes as output argument"))
  else
    let '(read, err) := hkdf_Read key (EncodeSLP [] infos) (length out) in
    let out := take (length out) read ++ drop (length read) out in
    match err with
    | Some err => (out, Err (ErrWrap "box2: failed to derive key" err))
    | None =>
        let nout := length read in
        if negb (Nat.eqb nout 32) then
          (out, Err (ErrMsg "box2: expected to read 32bytes into output"))
        else (out, Ok tt)
    end.

End DeriveTo.

(** The bytes [EncodeSLP] writes for one element, whatever its length. *)
Definition slp_frame_any (elem : list byte) : list byte :=
  PutUint16 (uint16 (N.of_nat (length elem))) ++ elem.

(** An element shorter than 2^16 bytes. *)
Definition short (elem : list byte) : Prop := N.of_nat (length elem) < 65536.

(** A stand-in for HKDF: the info string, cut or padded to the length
    asked for. *)
Definition example_hkdf_Read (key info : list byte) (n : nat)
  : list byte * option error :=
  (take n (info ++ replicate n x00), None).

End box2_derive.

(** ** blobstore: sequences of operations, and the change handler of a
    wantProc *)

Module blobstore_ops.
Import refs blobstore.

#[export] Instance byte_eq_decision : EqDecision byte := Byte.byte_eq_dec.

#[export] Instance BlobRef_eq_decision : EqDecision BlobRef.
Proof. solve_decision. Defined.

(** One call on the store or on its want manager, with what the
    environment answers during it. *)
Inductive StoreOp : Type :=
| OpPut (env : Env) (blob : Reader)
| OpDelete (notify : option error) (ref : BlobRef)
| OpWant (ref : BlobRef) (dist : Z).

Section Ops.

Variable sha256 : list byte → list byte.
Variable Ref : BlobRef → string.

Definition apply_op (w : World) (op : StoreOp) : World :=
  match op with
  | OpPut env blob => (Put sha256 Ref env blob w).1
  | OpDelete notify ref => (Delete Ref notify ref w).1
  | OpWant ref dist => (WantWithDist Ref ref dist w).1
  end.

Definition run (ops : list StoreOp) (w : World) : World :=
  fold_left apply_op ops w.

(** The reference [Put] computes for a stream. *)
Definition refOf (blob : Reader) : BlobRef :=
  mkBlobRef (sha256 (data blob)) "sha256".

(** Everything [Put] asks of its environment goes well. *)
Definition env_ok (env : Env) (blob : Reader) : Prop :=
  create_err env = None ∧
  (∀ e, ending blob ≠ ReadErr e) ∧
  close_err env = None ∧
  (∀ e, mkdir env ≠ MkdirFail e) ∧
  rename_err env = None ∧
  notify_err env = None.

(** The sink [wantProc.init] registers on [bs.Changes()]: [bs] is the
    store at the time the notification is delivered. *)
Definition wantProc_onChange (bs : World) (notif : BlobStoreNotification)
    (proc : wantProc) : wantProc * Result error unit :=
  match remoteWants proc !! Ref (NRef notif) with
  | Some _ =>
      match Size bs (NRef notif) with
      | Err err => (proc, Err (ErrWrap "error getting blob size" err))
      | Ok sz =>
          let m : gmap string Z := {[Ref (NRef notif) := sz]} in
          (mkProc (remoteWants proc) (out proc ++ [m]) (fetching proc), Ok tt)
      end
  | None => (proc, Ok tt)
  end.

(** The entries of a want message for which [Pour] starts a fetch. *)
Definition fetched (wmgr : World) (mIn : list want) : list BlobRef :=
  map WRef (filter (λ w, (0 ≤ Dist w)%Z ∧ Wants Ref wmgr (WRef w) = true) mIn).

End Ops.

End blobstore_ops.

(** More stand-ins: an environment in which only another sink of the
    change broadcast fails, and a peer that has asked for the example
    blob before the store had it. *)
Definition example_env_notify : blobstore.Env :=
  blobstore.mkEnv 1589191800000000000 None None blobstore.MkdirOk None
    (Some (ErrMsg "sink closed")).

Definition example_msg_want : list blobstore.want :=
  [blobstore.mkWant example_ref (-1)].

Definition example_proc_waiting : blobstore.wantProc :=
  (blobstore.Pour example_Ref example_world example_msg_want example_proc).1.

(** ** sbot/replicate.go: runs of the debounce loop *)

Module replicate_run.
Import replicate.

(** The loop of [debounce] over the events it selects, in order. *)
Definition debounce_run (interval : Z) (work : lister → lister)
    (evs : list debounceEvent) (st : debounceState) : debounceState :=
  fold_left (debounce_step interval work) evs st.

(** An event that hands the loop a sequence other than [SeqEmpty]. *)
Definition brings_seq (ev : debounceEvent) : Prop :=
  match ev with
  | Observed newSeq _ => newSeq ≠ SeqEmpty
  | TimerFired => False
  end.

(** A graph in which the node follows [@bob] and blocks [@eve]. *)
Definition example_graph : Builder :=
  mkBuilder (λ _ _, {["@bob"]}) (Ok (mkGraph (λ _, {["@eve"]}))).

End replicate_run.

(** ** sbot/new.go: closing the bot and admitting a connection *)

Module sbotnew.

Record FeedRef : Type := mkFeedRef { ID : list byte; Algo : string }.

(** The handlers a connection can be given. *)
Inductive Handler : Type := MasterHandler | PublicHandler | GuestHandler.

(** An [ssb.Authorizer]: its [Authorize] method. *)
Abbreviation Authorizer := (FeedRef → Result error unit).

Record Sbot : Type := mkSbot {
  KeyPairId : FeedRef;
  promisc : bool;
  authorizer : option Authorizer;        (* s.authorizer, nil or set *)
  ReplicatorLister : Authorizer;         (* s.Replicator.Lister() *)
  UsersList : Result error (list string) (* s.Users.List() *)
}.

(** The steps [Close] takes. *)
Inductive CloseStep : Type :=
| NetworkClose | ConnTrackerCloseAll | IdxDoneWait | ClosersClose.

(** What the parts of the bot answer when closed; [None] is success. *)
Record CloseEnv : Type := mkCloseEnv {
  network_Close : option error;
  idxDone_Wait : option error;
  closers_Close : option error;
}.

(** The fields of the bot [Close] reads and writes, and the steps taken
    so far. *)
Record BotState : Type := mkBot {
  closed : bool;
  closeErr : option error;
  hasNetwork : bool;                     (* s.Network != nil *)
  steps : list CloseStep;
}.

Definition Close (env : CloseEnv) (s : BotState) : BotState * option error :=
  if closed s then (s, closeErr s)
  else
    let s := mkBot true (closeErr s) (hasNetwork s) (steps s) in
    let afterNetwork (s : BotState) : BotState * option error :=
      let s := mkBot (closed s) (closeErr s) (hasNetwork s) (steps s ++ [IdxDoneWait]) in
      match idxDone_Wait env with
      | Some err =>
          let e := ErrWrap "sbot: index group shutdown failed" err in
          (mkBot (closed s) (Some e) (hasNetwork s) (steps s), Some e)
      | None =>
          let s := mkBot (closed s) (closeErr s) (hasNetwork s) (steps s ++ [ClosersClose]) in
          match closers_Close env with
          | Some err => (mkBot (closed s) (Some err) (hasNetwork s) (steps s), Some err)
          | None => (s, None)
          end
      end in
    if hasNetwork s then
      let s := mkBot (closed s) (closeErr s) (hasNetwork s) (steps s ++ [NetworkClose]) in
      match network_Close env with
      | Some err =>
          let e := ErrWrap "sbot: failed to close own network node" err in
          (mkBot (closed s) (Some e) (hasNetwork s) (steps s), Some e)
      | None =>
          afterNetwork
            (mkBot (closed s) (closeErr s) (hasNetwork s)
                   (steps s ++ [ConnTrackerCloseAll]))
      end
    else afterNetwork s.

Section Admission.

(** [FeedRef.Equal] and the algorithm constant of the references library. *)
Variable Equal : FeedRef → FeedRef → bool.
Variable RefAlgoFeedGabby : string.

(** [mkHandler]: [remoteAddr] is what [ssb.GetFeedRefFromAddr] answers for
    the connection, [inviteService] the invite service if it has been set
    up by then. *)
Definition mkHandler (s : Sbot) (inviteService : option Authorizer)
    (remoteAddr : Result error FeedRef) : Result error Handler :=
  match remoteAddr with
  | Err err => Err (ErrWrap "sbot: expected an address containing an shs-bs addr" err)
  | Ok remote =>
      if Equal (KeyPairId s) remote then Ok MasterHandler
      else
        let invited :=
          match inviteService with
          | Some inv => match inv remote with Ok _ => true | Err _ => false end
          | None => false
          end in
        if invited then Ok GuestHandler
        else if promisc s then Ok PublicHandler
        else
          let auth := match authorizer s with
                      | Some a => a
                      | None => ReplicatorLister s
                      end in
          match auth remote with
          | Ok _ => Ok PublicHandler
          | Err _ =>
              (* remote.Algo = refs.RefAlgoFeedGabby *)
              let remote := mkFeedRef (ID remote) RefAlgoFeedGabby in
              match auth remote with
              | Ok _ => Ok PublicHandler
              | Err err =>
                  match UsersList s with
                  | Ok [] => Ok PublicHandler   (* trust on first use *)
                  | _ => Err err
                  end
              end
          end
  end.

(** [selfChecker.Authorize]. *)
Definition selfChecker_Authorize (me remote : FeedRef) : Result error unit :=
  if Equal me remote then Ok tt else Err (ErrMsg "not authorized").

End Admission.

(** Stand-ins: references compared by key and algorithm, and a bot with no
    stored feeds whose replicator denies everybody. *)
Definition example_Equal (a b : FeedRef) : bool :=
  String.eqb (hex_EncodeToString (ID a)) (hex_EncodeToString (ID b))
  && String.eqb (Algo a) (Algo b).

Definition example_bot : Sbot :=
  mkSbot (mkFeedRef [x01] "ed25519") false None
         (λ _, Err (ErrMsg "nope - access denied")) (Ok []).

Definition example_peer : FeedRef := mkFeedRef [x02] "ed25519".

End sbotnew.

(** ** plugins/peerinvites: the index of open invites *)

Module peerinvites.

(** A feed reference and a message reference, each identified by its
    string form. *)
Abbreviation FeedRef := string.
Abbreviation MessageRef := string.

Record Message : Type := mkMessage { ContentBytes : list byte }.

(** The [interface{}] value handed to the index: a message or not. *)
Inductive logValue : Type :=
| IsMessage (msg : Message)
| NotMessage.

(** A value stored in the index; a key without a value is
    [librarian.UnsetValue]. *)
Inductive idxValue : Type :=
| VBool (b : bool)
| VOtherType.

(** The index [p.h.state], kept in memory: its [Get], [Value] and [Set]
    succeed. *)
Abbreviation State := (gmap string idxValue).

Section Index.

(** [json.Unmarshal] of a message content into the structures the plugin
    declares: the [type] field, the [invite] field of an invite (nil when
    absent), the [receipt] of the accept message embedded in a confirm; and
    [p.h.g.Get], the message store. *)
Variable decodeType : list byte → Result error string.
Variable decodeInvite : list byte → Result error (option FeedRef).
Variable decodeReceipt : list byte → Result error (option MessageRef).
Variable g_Get : MessageRef → Result error Message.

Definition indexNewInvite (msg : Message) (st : State) : State * Result error unit :=
  match decodeInvite (ContentBytes msg) with
  | Err err => (st, Err err)
  | Ok None => (st, Err (ErrMsg "invalid invite"))
  | Ok (Some guestRef) =>
      let idxAddr := guestRef in
      match st !! idxAddr with
      | Some (VBool true) => (st, Err (ErrMsg "invites: guest ID already in use"))
      | Some (VBool false) => (<[idxAddr := VBool true]> st, Ok tt)   (* ok, reuse *)
      | None => (<[idxAddr := VBool true]> st, Ok tt)          (* ok, fresh guest key *)
      | Some VOtherType =>
          (st, Err (ErrMsg "unhandled index type for new invite message"))
      end
  end.

(** [indexConfirm]; calling [Ref] on a nil [Invite] panics, which is
    reported here as an error. *)
Definition indexConfirm (msg : Message) (st : State) : State * Result error unit :=
  match decodeReceipt (ContentBytes msg) with
  | Err err => (st, Err err)
  | Ok None => (st, Err (ErrMsg "invalid recipt on confirm msg"))
  | Ok (Some receiptRef) =>
      match g_Get receiptRef with
      | Err err => (st, Err err)
      | Ok reciept =>
          match decodeInvite (ContentBytes reciept) with
          | Err err => (st, Err err)
          | Ok None => (st, Err (ErrMsg "panic: nil pointer dereference"))
          | Ok (Some invite) => (<[invite := VBool false]> st, Ok tt)
          end
      end
  end.

(** The function [updateIndex] hands to the sink index. *)
Definition updateIndex (val : logValue) (st : State) : State * Result error unit :=
  match val with
  | NotMessage => (st, Err (ErrMsg "unexpeced stored message type"))
  | IsMessage msg =>
      match decodeType (ContentBytes msg) with
      | Err _ => (st, Ok tt)
      | Ok ty =>
          if String.eqb ty "peer-invite" then indexNewInvite msg st
          else if String.eqb ty "peer-invite/confirm" then indexConfirm msg st
          else (st, Ok tt)                                     (* skip *)
      end
  end.

Definition Authorize (st : State) (to : FeedRef) : Result error unit :=
  match st !! to with
  | Some (VBool true) => Ok tt
  | _ => Err (ErrMsg "not for us")
  end.

End Index.

(** Stand-ins: a content is its type byte followed by the guest (for an
    invite, type 1) or by the reference of the receipt (for a confirm,
    type 2); the store holds one invite, for [@guest], under [%inv]. *)
Definition example_decodeType (c : list byte) : Result error string :=
  match c with
  | x01 :: _ => Ok "peer-invite"
  | x02 :: _ => Ok "peer-invite/confirm"
  | x03 :: _ => Ok "post"
  | _ => Err (ErrMsg "unexpected end of JSON input")
  end.

Definition example_decodeInvite (c : list byte) : Result error (option FeedRef) :=
  match c with
  | x01 :: _ => Ok (Some "@guest")
  | _ => Ok None
  end.

Definition example_decodeReceipt (c : list byte) : Result error (option MessageRef) :=
  match c with
  | x02 :: _ => Ok (Some "%inv")
  | _ => Ok None
  end.

Definition example_g_Get (r : MessageRef) : Result error Message :=
  if String.eqb r "%inv" then Ok (mkMessage [x01]) else Err (ErrMsg "no such message").

Definition example_updateIndex : logValue → State → State * Result error unit :=
  updateIndex example_decodeType example_decodeInvite example_decodeReceipt
    example_g_Get.

End peerinvites.

(** ** multilogs/userfeeds.go: feeding a log to the index *)

Module multilogs_run.
Import multilogs.

Section Feed.

Variable StoredAddr : FeedRef → string.

(** Successive calls of [UserFeedsUpdate] on the entries of a log, in
    order, for as long as they succeed. *)
Fixpoint feed (entries : list (Z * value)) (mlog : MultiLog)
  : MultiLog * Result error unit :=
  match entries with
  | [] => (mlog, Ok tt)
  | (seq, v) :: rest =>
      match UserFeedsUpdate StoredAddr seq v mlog with
      | (mlog, Ok _) => feed rest mlog
      | (mlog, Err err) => (mlog, Err err)
      end
  end.

(** The receive sequences of the entries that are messages of the author
    stored under [addr]. *)
Definition authored (addr : string) (entries : list (Z * value)) : list Z :=
  omap (λ entry : Z * value,
          match entry.2 with
          | VMessage m =>
              match Author m with
              | Some a => if decide (StoredAddr a = addr) then Some entry.1 else None
              | None => None
              end
          | _ => None
          end) entries.

(** An entry the update accepts: a nulled entry or a message with an
    author. *)
Definition acceptable (v : value) : Prop :=
  match v with
  | VError e => IsErrNulled e = true
  | VMessage m => is_Some (Author m)
  | VOther _ => False
  end.

End Feed.

(** A log of three entries: a message of alice, a nulled entry, another
    message of alice. *)
Definition example_log : list (Z * value) :=
  [(0%Z, VMessage (mkMessage (Some "@alice") 1));
   (1%Z, VError ErrNulled);
   (2%Z, VMessage (mkMessage (Some "@alice") 2))].

End multilogs_run.

(** * Theorems *)

(** ** Bytes *)

Lemma to_N_byte_of_N v : Byte.to_N (byte_of_N v) = v mod 256.
Proof.
  unfold byte_of_N.
  destruct (Byte.of_N (v mod 256)) as [b|] eqn:E.
  - now apply Byte.to_of_N.
  - apply Byte.of_N_None_iff in E.
    pose proof (N.mod_upper_bound v 256). lia.
Qed.

Lemma byte_of_N_to_N b : byte_of_N (Byte.to_N b) = b.
Proof.
  unfold byte_of_N.
  pose proof (Byte.to_N_bounded b) as Hb.
  rewrite N.mod_small by lia.
  now rewrite Byte.of_to_N.
Qed.

(** ** encoding/hex and paths *)

Lemma hexdigit_inj n m : n < 16 → m < 16 → hexdigit n = hexdigit m → n = m.
Proof.
  intros Hn Hm.
  assert (En : n = 0 ∨ n = 1 ∨ n = 2 ∨ n = 3 ∨ n = 4 ∨ n = 5 ∨ n = 6 ∨ n = 7 ∨
               n = 8 ∨ n = 9 ∨ n = 10 ∨ n = 11 ∨ n = 12 ∨ n = 13 ∨ n = 14 ∨ n = 15) by lia.
  assert (Em : m = 0 ∨ m = 1 ∨ m = 2 ∨ m = 3 ∨ m = 4 ∨ m = 5 ∨ m = 6 ∨ m = 7 ∨
               m = 8 ∨ m = 9 ∨ m = 10 ∨ m = 11 ∨ m = 12 ∨ m = 13 ∨ m = 14 ∨ m = 15) by lia.
  clear Hn Hm.
  repeat (destruct En as [->|En]); try subst n;
    repeat (destruct Em as [->|Em]); try subst m;
    cbn; intros H; first [reflexivity | discriminate H].
Qed.

Lemma byte_nibbles v : Byte.to_N v = 16 * N.shiftr (Byte.to_N v) 4 + N.land (Byte.to_N v) 15.
Proof.
  rewrite N.shiftr_div_pow2. change 15 with (N.ones 4). rewrite N.land_ones.
  change (2 ^ 4) with 16. apply N.div_mod. lia.
Qed.

Lemma byte_nibbles_inj v v' :
  hexdigit (N.shiftr (Byte.to_N v) 4) = hexdigit (N.shiftr (Byte.to_N v') 4) →
  hexdigit (N.land (Byte.to_N v) 15) = hexdigit (N.land (Byte.to_N v') 15) →
  v = v'.
Proof.
  intros Hhi Hlo.
  pose proof (Byte.to_N_bounded v) as Hv. pose proof (Byte.to_N_bounded v') as Hv'.
  assert (Hb : ∀ x, x ≤ 255 → N.shiftr x 4 < 16 ∧ N.land x 15 < 16).
  { intros x Hx. rewrite N.shiftr_div_pow2. change 15 with (N.ones 4).
    rewrite N.land_ones. change (2 ^ 4) with 16. split.
    - apply N.Div0.div_lt_upper_bound; lia.
    - apply N.mod_upper_bound. lia. }
  destruct (Hb _ Hv) as [H1 H2]. destruct (Hb _ Hv') as [H1' H2'].
  apply hexdigit_inj in Hhi; [|assumption..].
  apply hexdigit_inj in Hlo; [|assumption..].
  assert (E : Byte.to_N v = Byte.to_N v').
  { rewrite (byte_nibbles v), (byte_nibbles v'). now rewrite Hhi, Hlo. }
  rewrite <- (byte_of_N_to_N v), <- (byte_of_N_to_N v'). now rewrite E.
Qed.

Lemma hex_EncodeToString_inj a b :
  hex_EncodeToString a = hex_EncodeToString b → a = b.
Proof.
  revert b. induction a as [|v a IH]; intros [|v' b] H; cbn in H;
    try discriminate; [reflexivity|].
  injection H as Hhi Hlo Hrest.
  f_equal; [now apply byte_nibbles_inj | now apply IH].
Qed.

Lemma hex_EncodeToString_length a :
  String.length (hex_EncodeToString a) = (2 * length a)%nat.
Proof. induction a as [|v a IH]; cbn; [reflexivity|]. rewrite IH. lia. Qed.

Lemma substring_all s : substring 0 (String.length s) s = s.
Proof. induction s as [|c s IH]; cbn; [reflexivity|]. now rewrite IH. Qed.

Lemma substring_zero s : substring 0 0 s = EmptyString.
Proof. now destruct s. Qed.

(** Cutting a string after its first two characters, as [s[:2]] and
    [s[2:]] do, loses nothing. *)
Lemma split_two s :
  (2 ≤ String.length s)%nat →
  String.append (substring 0 2 s) (substring 2 (String.length s - 2) s) = s
  ∧ String.length (substring 0 2 s) = 2%nat.
Proof.
  destruct s as [|a [|b s]]; cbn; try lia. intros _.
  rewrite substring_zero, Nat.sub_0_r, substring_all. now split.
Qed.

Lemma append_inj_length a a' b b' :
  String.length a = String.length a' →
  String.append a b = String.append a' b' → a = a' ∧ b = b'.
Proof.
  revert a'. induction a as [|c a IH]; intros [|c' a'] Hl H; cbn in *;
    try discriminate; [now split|].
  injection H as -> H. injection Hl as Hl.
  destruct (IH a' Hl H) as [-> ->]. now split.
Qed.

(** ** Theorems: blobstore *)

Module blobstore_facts.
Import refs blobstore.

Section Store.

Variable sha256 : list byte → list byte.
Variable Ref : BlobRef → string.

Local Abbreviation Put := (Put sha256 Ref).
Local Abbreviation sink_Pour := (sink_Pour Ref).
Local Abbreviation deliver := (deliver Ref).
Local Abbreviation wantManager_onChange := (wantManager_onChange Ref).
Local Abbreviation visible_ok := (visible_ok sha256).
Local Abbreviation present_not_wanted := (present_not_wanted Ref).
Local Abbreviation WantWithDist := (WantWithDist Ref).
Local Abbreviation Want := (Want Ref).
Local Abbreviation Wants := (Wants Ref).

(** *** References and paths *)

Lemma IsValid_Ok ref :
  IsValid ref = Ok tt ↔ Algo ref = "sha256" ∧ length (Hash ref) = 32%nat.
Proof.
  unfold IsValid, RefAlgoBlobSSB1.
  destruct (String.eqb_spec (Algo ref) "sha256") as [Ha|Ha]; cbn.
  - destruct (Nat.eqb_spec (length (Hash ref)) 32) as [Hl|Hl]; cbn.
    + split; [now split|reflexivity].
    + split; [discriminate|]. intros [_ ?]. contradiction.
  - split; [discriminate|]. intros [? _]. contradiction.
Qed.

Lemma IsValid_cases ref : IsValid ref = Ok tt ∨ ∃ e, IsValid ref = Err e.
Proof. destruct (IsValid ref) as [[]|e]; [now left|right; eauto]. Qed.

(** The visible path of a valid reference: [sha256/<hh>/<rest>] below the
    base path, where [hh] is the first two hex digits of the digest. *)
Lemma getPath_Ok store ref p :
  getPath store ref = Ok p →
  IsValid ref = Ok tt ∧
  ∃ hh rest,
    p = [basePath store; "sha256"; hh; rest] ∧
    String.append hh rest = hex_EncodeToString (Hash ref) ∧
    String.length hh = 2%nat.
Proof.
  unfold getPath. destruct (IsValid ref) as [[]|e] eqn:Hv; [|discriminate].
  intros [= <-]. split; [reflexivity|].
  apply IsValid_Ok in Hv as [Ha Hl].
  assert (H2 : (2 ≤ String.length (hex_EncodeToString (Hash ref)))%nat)
    by (rewrite hex_EncodeToString_length; lia).
  destruct (split_two _ H2) as [Happ Hlen].
  eexists _, _. unfold filepath_Join. rewrite Ha. split; [reflexivity|]. now split.
Qed.

Lemma getPath_valid store ref :
  IsValid ref = Ok tt → ∃ p, getPath store ref = Ok p.
Proof. unfold getPath. intros ->. eauto. Qed.

Lemma getPath_invalid store ref p : IsValid ref ≠ Ok tt → getPath store ref ≠ Ok p.
Proof. intros Hn Hp. apply getPath_Ok in Hp as [Hv _]. contradiction. Qed.

Lemma getPath_basePath store store' ref :
  basePath store' = basePath store → getPath store' ref = getPath store ref.
Proof. unfold getPath. now intros ->. Qed.

Lemma getHexDirPath_Ok store ref d :
  getHexDirPath store ref = Ok d → IsValid ref = Ok tt.
Proof. unfold getHexDirPath. now destruct (IsValid ref) as [[]|e]. Qed.

(** Two references with the same visible path are the same reference. *)
Lemma getPath_inj store store' ref ref' p :
  getPath store ref = Ok p → getPath store' ref' = Ok p → ref = ref'.
Proof.
  intros H H'.
  apply getPath_Ok in H as (Hv & hh & rest & -> & Happ & Hlen).
  apply getPath_Ok in H' as (Hv' & hh' & rest' & E & Happ' & Hlen').
  injection E as _ -> ->.
  apply IsValid_Ok in Hv as [Ha _]. apply IsValid_Ok in Hv' as [Ha' _].
  rewrite Happ in Happ'. apply hex_EncodeToString_inj in Happ'.
  destruct ref, ref'; cbn in *. congruence.
Qed.

(** A staging path is never a visible path. *)
Lemma getTmpPath_not_visible store store' nanos ref :
  getPath store' ref ≠ Ok (getTmpPath store nanos).
Proof.
  intros H. apply getPath_Ok in H as (_ & hh & rest & E & _). discriminate E.
Qed.

(** *** The change broadcast *)

Lemma wantManager_onChange_frame n w :
  basePath (wantManager_onChange n w) = basePath w ∧
  files (wantManager_onChange n w) = files w ∧
  sinks (wantManager_onChange n w) = sinks w ∧
  changes (wantManager_onChange n w) = changes w ∧
  wantBcast (wantManager_onChange n w) = wantBcast w.
Proof.
  unfold wantManager_onChange. destruct (Op n); [|done].
  destruct (wants w !! Ref (NRef n)); done.
Qed.

Lemma wantManager_onChange_wants n w :
  wants (wantManager_onChange n w) =
  match Op n with
  | BlobStoreOpPut => delete (Ref (NRef n)) (wants w)
  | BlobStoreOpRm => wants w
  end.
Proof.
  unfold wantManager_onChange. destruct (Op n); [|done].
  destruct (wants w !! Ref (NRef n)) eqn:E; cbn; [done|].
  symmetry. now apply delete_id.
Qed.

Lemma deliver_all_frame n ss w :
  basePath (fold_left (deliver n) ss w) = basePath w ∧
  files (fold_left (deliver n) ss w) = files w ∧
  sinks (fold_left (deliver n) ss w) = sinks w ∧
  changes (fold_left (deliver n) ss w) = changes w ∧
  wantBcast (fold_left (deliver n) ss w) = wantBcast w.
Proof.
  revert w. induction ss as [|[] ss IH]; intros w; cbn; [done|].
  destruct (IH (wantManager_onChange n w)) as (-> & -> & -> & -> & ->).
  apply wantManager_onChange_frame.
Qed.

(** Delivery only ever removes the notified key, and removes it as soon as
    the want manager's sink is among the sinks. *)
Lemma deliver_all_wants n ss w k :
  wants (fold_left (deliver n) ss w) !! k =
  if bool_decide (ss ≠ [] ∧ Op n = BlobStoreOpPut ∧ k = Ref (NRef n))
  then None else wants w !! k.
Proof.
  revert w. induction ss as [|[] ss IH]; intros w; cbn [fold_left deliver].
  - rewrite bool_decide_eq_false_2; [done|]. now intros [? _].
  - rewrite IH, wantManager_onChange_wants.
    destruct (decide (Op n = BlobStoreOpPut ∧ k = Ref (NRef n))) as [[Hop ->]|Hn].
    + rewrite (bool_decide_eq_true_2 (_ :: _ ≠ [] ∧ _))
        by (split; [discriminate|split; [exact Hop|reflexivity]]).
      rewrite Hop. clear IH. destruct (bool_decide _); [done|apply lookup_delete_eq].
    + rewrite !bool_decide_eq_false_2
        by (intros (_ & ? & ?); apply Hn; split; assumption).
      destruct (Op n) eqn:Eop; [|done].
      apply lookup_delete_ne. intros <-. apply Hn. split; reflexivity.
Qed.

Lemma sink_Pour_frame other n w :
  basePath (sink_Pour other n w).1 = basePath w ∧
  files (sink_Pour other n w).1 = files w ∧
  sinks (sink_Pour other n w).1 = sinks w ∧
  changes (sink_Pour other n w).1 = changes w ++ [n] ∧
  wantBcast (sink_Pour other n w).1 = wantBcast w.
Proof.
  unfold sink_Pour. cbn.
  destruct (deliver_all_frame n (sinks w) (set_changes (changes w ++ [n]) w))
    as (-> & -> & -> & -> & ->). done.
Qed.

Lemma sink_Pour_wants other n w k :
  wants (sink_Pour other n w).1 !! k =
  if bool_decide (sinks w ≠ [] ∧ Op n = BlobStoreOpPut ∧ k = Ref (NRef n))
  then None else wants w !! k.
Proof.
  unfold sink_Pour. cbn.
  exact (deliver_all_wants n (sinks w) (set_changes (changes w ++ [n]) w) k).
Qed.

(** *** Put *)

(** What a successful [Put] went through: the staged copy, the reference
    computed from the copied bytes, and the rename followed by the
    notification. *)
Lemma Put_Ok_inv env blob store store' ref :
  Put env blob store = (store', Ok ref) →
  let tmpPath := getTmpPath store (now env) in
  let staged := set_files (<[tmpPath := data blob]> (files store)) store in
  ∃ finalPath,
    ref = mkBlobRef (sha256 (data blob)) "sha256" ∧
    getPath store ref = Ok finalPath ∧
    store' =
      (sink_Pour (notify_err env) (mkNotification BlobStoreOpPut ref)
         (set_files (<[finalPath := data blob]> (delete tmpPath (files staged)))
            staged)).1.
Proof.
  unfold blobstore.Put. intros H.
  destruct (create_err env); [discriminate|].
  destruct (ending blob); try discriminate;
    (destruct (close_err env); [discriminate|];
     destruct (getHexDirPath _ _) as [hexDirPath|]; [|discriminate];
     destruct (mkdir env); try discriminate;
     (destruct (getPath _ _) as [finalPath|] eqn:Hp; [|discriminate];
      destruct (rename_err env); [discriminate|];
      destruct (blobstore.sink_Pour _ _ _ _) as [st [[]|e]] eqn:Hpour;
        [|discriminate];
      injection H as <- <-;
      exists finalPath; split; [reflexivity|]; split;
        [rewrite <- Hp; symmetry; now apply getPath_basePath
        |now rewrite Hpour])).
Qed.

(** C2: a successful [Put] has written the stream to [tmp/<nanos>], and
    moved that file in one rename to [sha256/<hh>/<rest>], [hh] being the
    first two hex digits of the SHA-256 of the bytes copied; the reference
    returned has algorithm sha256 and that digest, the staging path is gone,
    and the bytes at the visible path of the reference hash to the
    reference. *)
Theorem Put_content_addressed env blob store store' ref :
  Put env blob store = (store', Ok ref) →
  let tmpPath := [basePath store; "tmp"; pretty (now env)] in
  ∃ hh rest finalPath,
    String.append hh rest = hex_EncodeToString (sha256 (data blob)) ∧
    String.length hh = 2%nat ∧
    finalPath = [basePath store; "sha256"; hh; rest] ∧
    Algo ref = "sha256" ∧ Hash ref = sha256 (data blob) ∧
    files store' =
      <[finalPath := data blob]>
        (delete tmpPath (<[tmpPath := data blob]> (files store))) ∧
    files store' !! tmpPath = None ∧
    getPath store' ref = Ok finalPath ∧
    Get store' ref = Ok (data blob) ∧
    (∀ stored, Get store' ref = Ok stored → sha256 stored = Hash ref).
Proof.
  intros H. apply Put_Ok_inv in H as (finalPath & -> & Hp & ->).
  pose proof Hp as Hp'.
  apply getPath_Ok in Hp' as (_ & hh & rest & -> & Happ & Hlen). cbn in Happ.
  match goal with
  | |- context [sink_Pour ?o ?n ?w] =>
      destruct (sink_Pour_frame o n w) as (Hb & Hf & _ & _ & _);
      remember (sink_Pour o n w).1 as st' eqn:Est; clear Est
  end.
  cbn in Hb, Hf.
  pose proof (getPath_basePath store st'
                (mkBlobRef (sha256 (data blob)) "sha256") Hb) as Hget.
  rewrite Hp in Hget.
  assert (Hfiles : files st' !! [basePath store; "sha256"; hh; rest]
                   = Some (data blob)).
  { rewrite Hf. apply lookup_insert_eq. }
  exists hh, rest, [basePath store; "sha256"; hh; rest].
  repeat split; try done.
  - rewrite Hf. rewrite lookup_insert_ne by discriminate.
    apply lookup_delete_eq.
  - unfold Get. rewrite Hget. cbv beta iota. now rewrite Hfiles.
  - intros stored. unfold Get. rewrite Hget. cbv beta iota. rewrite Hfiles.
    now intros [= <-].
Qed.

Lemma NewWantManager_registered bs :
  WantManagerSink ∈ sinks (NewWantManager bs) ∧ wants (NewWantManager bs) = ∅.
Proof. unfold NewWantManager. cbn. split; [set_solver|reflexivity]. Qed.

(** C4: on a store whose changes the want manager listens to, after a
    successful [Put] of bytes hashing to [ref] the reference is no longer in
    the want set, and a [BlobStoreOpPut] notification for it has been poured
    into the change broadcast; no other want is touched. *)
Theorem Put_clears_want env blob store store' ref :
  WantManagerSink ∈ sinks store →
  Put env blob store = (store', Ok ref) →
  Hash ref = sha256 (data blob) ∧
  wants store' !! Ref ref = None ∧
  Wants store' ref = false ∧
  changes store' = changes store ++ [mkNotification BlobStoreOpPut ref] ∧
  (∀ k, k ≠ Ref ref → wants store' !! k = wants store !! k).
Proof.
  intros Hs H. apply Put_Ok_inv in H as (finalPath & -> & Hp & ->).
  match goal with
  | |- context [sink_Pour ?o ?n ?w] =>
      destruct (sink_Pour_frame o n w) as (_ & _ & _ & Hc & _);
      pose proof (sink_Pour_wants o n w) as Hw;
      remember (sink_Pour o n w).1 as st' eqn:Est; clear Est
  end.
  cbn in Hc, Hw.
  assert (Hne : sinks store ≠ []) by (intros E; rewrite E in Hs; set_solver).
  assert (Hnone : wants st' !! Ref (mkBlobRef (sha256 (data blob)) "sha256") = None).
  { rewrite Hw. now rewrite bool_decide_eq_true_2. }
  repeat split; try done.
  - unfold blobstore.Wants. now rewrite Hnone.
  - intros k Hk. rewrite Hw.
    rewrite bool_decide_eq_false_2; [done|]. intros (_ & _ & ?). contradiction.
Qed.

(** Every outcome of [Put]: nothing happened, the staged copy was left
    behind, or the blob was moved into place and the notification poured. *)
Lemma Put_cases env blob store :
  let tmpPath := getTmpPath store (now env) in
  let staged := set_files (<[tmpPath := data blob]> (files store)) store in
  let ref := mkBlobRef (sha256 (data blob)) "sha256" in
  (Put env blob store).1 = store ∨
  (Put env blob store).1 = staged ∨
  ∃ finalPath,
    getPath store ref = Ok finalPath ∧
    (Put env blob store).1 =
      (sink_Pour (notify_err env) (mkNotification BlobStoreOpPut ref)
         (set_files (<[finalPath := data blob]> (delete tmpPath (files staged)))
            staged)).1.
Proof.
  cbv zeta. unfold blobstore.Put.
  destruct (create_err env); [now left|].
  assert (Hb : ∀ w : World, basePath
            (set_files (<[getTmpPath store (now env) := data blob]> (files store)) store)
            = basePath store) by reflexivity.
  destruct (ending blob); [| |right; now left];
    (destruct (close_err env); [right; now left|];
     destruct (getHexDirPath _ _); [|right; now left];
     destruct (mkdir env); [| |right; now left];
     (destruct (getPath _ _) as [finalPath|] eqn:Hp; [|right; now left];
      destruct (rename_err env); [right; now left|];
      right; right; exists finalPath; split;
        [rewrite <- Hp; symmetry; now apply getPath_basePath|];
      now destruct (blobstore.sink_Pour _ _ _ _) as [st [[]|e]])).
Qed.

(** *** Invariants of the store *)

Lemma New_visible_ok base : visible_ok (New base).
Proof. intros ref p stored _ H. cbn in H. now rewrite lookup_empty in H. Qed.

(** [Put] keeps the invariant whatever its outcome: a staged file is not at
    a visible path, and the rename puts the bytes at the path of their own
    digest. *)
Lemma Put_visible_ok env blob store :
  visible_ok store → visible_ok (Put env blob store).1.
Proof.
  intros Hinv.
  destruct (Put_cases env blob store) as [->|[->|(finalPath & Hfp & ->)]];
    [exact Hinv| |].
  - intros ref p stored Hp Hf. cbn in Hf.
    rewrite lookup_insert_ne in Hf.
    + eapply Hinv; [|exact Hf]. rewrite <- Hp. symmetry. now apply getPath_basePath.
    + intros <-. now apply getTmpPath_not_visible in Hp.
  - match goal with
    | |- context [sink_Pour ?o ?n ?w] =>
        destruct (sink_Pour_frame o n w) as (Hb & Hf & _ & _ & _);
        remember (sink_Pour o n w).1 as st' eqn:Est; clear Est
    end.
    cbn in Hb, Hf. intros ref p stored Hp Hl.
    rewrite (getPath_basePath store st' ref Hb) in Hp. rewrite Hf in Hl.
    destruct (decide (finalPath = p)) as [->|Hne].
    + rewrite lookup_insert_eq in Hl. injection Hl as <-.
      now rewrite (getPath_inj _ _ _ _ _ Hp Hfp).
    + rewrite lookup_insert_ne in Hl by done.
      apply lookup_delete_Some in Hl as [Htmp Hl].
      rewrite lookup_insert_ne in Hl by done.
      now apply (Hinv ref p stored).
Qed.

Lemma Delete_visible_ok notify ref store :
  visible_ok store → visible_ok (Delete Ref notify ref store).1.
Proof.
  intros Hinv. unfold Delete.
  destruct (getPath store ref) as [p|]; [|exact Hinv].
  destruct (files store !! p); [|exact Hinv].
  match goal with
  | |- context [blobstore.sink_Pour Ref ?o ?n ?w] =>
      destruct (sink_Pour_frame o n w) as (Hb & Hf & _ & _ & _);
      destruct (blobstore.sink_Pour Ref o n w) as [st' [[]|e]]
  end; cbn in *;
    (intros ref' p' stored Hp Hl;
     rewrite (getPath_basePath store st' ref' Hb) in Hp; rewrite Hf in Hl;
     apply lookup_delete_Some in Hl as [_ Hl]; now apply (Hinv ref' p' stored)).
Qed.

(** *** The want manager *)

(** C10: [Want] is [WantWithDist] at distance -1.  When the blob is in the
    local store, [WantWithDist] succeeds and changes neither the want set
    nor the want broadcast, so a reference that was not wanted stays
    unwanted; otherwise it records the distance and pours the want.  The
    want set or the broadcast change only when the blob is absent. *)
Theorem WantWithDist_frame ref dist wmgr :
  Want ref wmgr = WantWithDist ref (-1) wmgr ∧
  (∀ f, Get wmgr ref = Ok f →
        WantWithDist ref dist wmgr = (wmgr, Ok tt) ∧
        Wants (WantWithDist ref dist wmgr).1 ref = Wants wmgr ref ∧
        (Wants wmgr ref = false → Wants (WantWithDist ref dist wmgr).1 ref = false)) ∧
  (∀ e, Get wmgr ref = Err e →
        wants (WantWithDist ref dist wmgr).1 = <[Ref ref := dist]> (wants wmgr) ∧
        wantBcast (WantWithDist ref dist wmgr).1 = wantBcast wmgr ++ [mkWant ref dist] ∧
        (WantWithDist ref dist wmgr).2 = Ok tt ∧
        Wants (WantWithDist ref dist wmgr).1 ref = true) ∧
  (wants (WantWithDist ref dist wmgr).1 ≠ wants wmgr ∨
   wantBcast (WantWithDist ref dist wmgr).1 ≠ wantBcast wmgr →
   ∃ e, Get wmgr ref = Err e).
Proof.
  split; [reflexivity|]. unfold blobstore.WantWithDist.
  destruct (Get wmgr ref) as [f|e] eqn:Hg.
  - split; [|split].
    + intros f' _. split; [reflexivity|]. split; [reflexivity|]. intros H. exact H.
    + intros e [=].
    + cbn. intros [H|H]; contradiction.
  - split; [|split].
    + intros f [=].
    + intros e' _. cbn. split; [reflexivity|]. split; [reflexivity|].
      split; [reflexivity|].
      unfold blobstore.Wants. cbn. now rewrite lookup_insert_eq.
    + intros _. exists e. reflexivity.
Qed.

Lemma NewWantManager_present_not_wanted bs : present_not_wanted (NewWantManager bs).
Proof. intros ref f _. cbn. apply lookup_empty. Qed.

Lemma Get_Ok store ref f :
  Get store ref = Ok f ↔ ∃ p, getPath store ref = Ok p ∧ files store !! p = Some f.
Proof.
  unfold Get. destruct (getPath store ref) as [p|e].
  - destruct (files store !! p) as [f'|] eqn:Hf.
    + split; [intros [= <-]; eauto|]. intros (p' & [= <-] & Hf'). congruence.
    + split; [discriminate|]. intros (p' & [= <-] & Hf'). congruence.
  - split; [discriminate|]. intros (p' & [=] & _).
Qed.

(** With the want manager listening, [Put] keeps present blobs unwanted. *)
Lemma Put_present_not_wanted env blob store :
  sinks store ≠ [] →
  present_not_wanted store → present_not_wanted (Put env blob store).1.
Proof.
  intros Hs Hinv.
  destruct (Put_cases env blob store) as [->|[->|(finalPath & Hfp & ->)]];
    [exact Hinv| |].
  - intros ref f Hg. apply Get_Ok in Hg as (p & Hp & Hf). cbn in Hf |- *.
    apply (Hinv ref f). apply Get_Ok. exists p. split.
    + rewrite <- Hp. symmetry. now apply getPath_basePath.
    + rewrite lookup_insert_ne in Hf; [done|].
      intros <-. now apply getTmpPath_not_visible in Hp.
  - match goal with
    | |- context [sink_Pour ?o ?n ?w] =>
        destruct (sink_Pour_frame o n w) as (Hb & Hf & _ & _ & _);
        pose proof (sink_Pour_wants o n w) as Hw;
        remember (sink_Pour o n w).1 as st' eqn:Est; clear Est
    end.
    cbn in Hb, Hf, Hw. intros ref f Hg.
    apply Get_Ok in Hg as (p & Hp & Hl).
    rewrite (getPath_basePath store st' ref Hb) in Hp. rewrite Hf in Hl.
    rewrite Hw. case_bool_decide as Hc; [done|].
    destruct (decide (finalPath = p)) as [->|Hne].
    + exfalso. apply Hc. rewrite (getPath_inj _ _ _ _ _ Hp Hfp). done.
    + rewrite lookup_insert_ne in Hl by done.
      apply lookup_delete_Some in Hl as [Htmp Hl].
      rewrite lookup_insert_ne in Hl by done.
      apply (Hinv ref f). apply Get_Ok. eauto.
Qed.

(** [WantWithDist] keeps them unwanted too, references being told apart by
    their string form. *)
Lemma WantWithDist_present_not_wanted ref dist wmgr :
  Inj (=) (=) Ref →
  present_not_wanted wmgr → present_not_wanted (WantWithDist ref dist wmgr).1.
Proof.
  intros Hinj Hinv. unfold blobstore.WantWithDist.
  destruct (Get wmgr ref) as [f|e] eqn:Hg; [exact Hinv|].
  intros ref' f' Hg'. cbn.
  assert (Hg'' : Get wmgr ref' = Ok f') by exact Hg'.
  rewrite lookup_insert_ne; [now apply (Hinv ref' f')|].
  intros E. apply Hinj in E. subst ref'. congruence.
Qed.

(** *** wantProc.Pour *)

Lemma wrap64_small z : (- 2 ^ 63 ≤ z < 2 ^ 63)%Z → wrap64 z = z.
Proof. intros Hz. unfold wrap64. rewrite Z.mod_small; lia. Qed.

Lemma Size_Ok store ref s :
  Size store ref = Ok s ↔ ∃ f, Get store ref = Ok f ∧ s = Z.of_nat (length f).
Proof.
  unfold Size, Get. destruct (getPath store ref) as [p|e].
  - destruct (files store !! p) as [f|].
    + split; [intros [= <-]; eauto|]. now intros (f' & [= <-] & ->).
    + split; [discriminate|]. now intros (f' & [=] & _).
  - split; [discriminate|]. now intros (f' & [=] & _).
Qed.

Lemma Size_NoSuchBlob store ref :
  Size store ref = Err ErrNoSuchBlob → ∀ f, Get store ref ≠ Ok f.
Proof.
  unfold Size, Get. destruct (getPath store ref) as [p|e]; [|discriminate].
  now destruct (files store !! p).
Qed.

Local Abbreviation key w := (Ref (WRef w)).
Local Abbreviation Pour_loop := (Pour_loop Ref).
Local Abbreviation Pour := (Pour Ref).

(** The loop never pours into [out]. *)
Lemma Pour_loop_out wmgr mIn proc mOut :
  out (Pour_loop wmgr mIn proc mOut).1 = out proc.
Proof.
  revert proc mOut. induction mIn as [|w rest IH]; intros proc mOut; cbn;
    [reflexivity|].
  destruct (Dist w <? 0)%Z.
  - destruct (Size wmgr (WRef w)) as [s|[]]; cbn; try reflexivity; now rewrite IH.
  - destruct (blobstore.Wants Ref wmgr (WRef w)); now rewrite IH.
Qed.

(** Keys that are not in the message keep their entries. *)
Lemma Pour_loop_other wmgr mIn proc mOut proc' mOut' k :
  Pour_loop wmgr mIn proc mOut = (proc', Ok mOut') →
  k ∉ map (λ w, Ref (WRef w)) mIn →
  remoteWants proc' !! k = remoteWants proc !! k ∧ mOut' !! k = mOut !! k.
Proof.
  revert proc mOut. induction mIn as [|w rest IH]; intros proc mOut H Hk; cbn in H.
  - now injection H as <- <-.
  - cbn in Hk. apply not_elem_of_cons in Hk as [Hne Hk].
    destruct (Dist w <? 0)%Z.
    + destruct (Size wmgr (WRef w)) as [s|[]]; try discriminate;
        destruct (IH _ _ H Hk) as [-> ->]; cbn.
      * now rewrite lookup_delete_ne, lookup_insert_ne by done.
      * now rewrite lookup_insert_ne by done.
    + destruct (blobstore.Wants Ref wmgr (WRef w)); now destruct (IH _ _ H Hk).
Qed.

(** What the loop does for each wanted entry of a message whose keys are
    distinct. *)
Lemma Pour_loop_entry wmgr mIn proc mOut proc' mOut' w :
  NoDup (map (λ w, Ref (WRef w)) mIn) →
  Pour_loop wmgr mIn proc mOut = (proc', Ok mOut') →
  w ∈ mIn → (Dist w < 0)%Z →
  (∃ s, Size wmgr (WRef w) = Ok s ∧ mOut' !! key w = Some s ∧
        remoteWants proc' !! key w = None) ∨
  (Size wmgr (WRef w) = Err ErrNoSuchBlob ∧
   remoteWants proc' !! key w = Some (wrap64 (Dist w - 1))).
Proof.
  revert proc mOut. induction mIn as [|w0 rest IH]; intros proc mOut Hnd H Hin Hneg.
  - now apply elem_of_nil in Hin.
  - cbn in Hnd. apply NoDup_cons in Hnd as [Hfresh Hnd]. cbn in H.
    apply elem_of_cons in Hin as [->|Hin].
    + apply Z.ltb_lt in Hneg. rewrite Hneg in H.
      destruct (Size wmgr (WRef w0)) as [s|[]]; try discriminate;
        destruct (Pour_loop_other _ _ _ _ _ _ _ H Hfresh) as [Hr Hm]; cbn in Hr.
      * left. exists s. rewrite Hm, Hr, lookup_insert_eq, lookup_delete_eq. done.
      * right. rewrite Hr, lookup_insert_eq. done.
    + destruct (Dist w0 <? 0)%Z.
      * destruct (Size wmgr (WRef w0)) as [s|[]]; try discriminate; eauto.
      * destruct (blobstore.Wants Ref wmgr (WRef w0)); eauto.
Qed.

(** Every entry of the reply answers an entry of the message. *)
Lemma Pour_loop_reply wmgr mIn proc mOut proc' mOut' k s :
  Pour_loop wmgr mIn proc mOut = (proc', Ok mOut') →
  mOut' !! k = Some s →
  mOut !! k = Some s ∨
  ∃ w, w ∈ mIn ∧ (Dist w < 0)%Z ∧ Size wmgr (WRef w) = Ok s ∧ k = key w.
Proof.
  revert proc mOut. induction mIn as [|w rest IH]; intros proc mOut H Hk; cbn in H.
  - injection H as <- <-. now left.
  - destruct (Dist w <? 0)%Z eqn:Hneg.
    + apply Z.ltb_lt in Hneg.
      destruct (Size wmgr (WRef w)) as [s0|[]] eqn:Hs; try discriminate.
      * destruct (IH _ _ H Hk) as [Hm|(w' & Hin & ? & ? & ?)].
        -- destruct (decide (key w = k)) as [<-|Hne].
           ++ rewrite lookup_insert_eq in Hm. injection Hm as ->.
              right. exists w. split; [left|done].
           ++ rewrite lookup_insert_ne in Hm by done. now left.
        -- right. exists w'. split; [now right|done].
      * destruct (IH _ _ H Hk) as [Hm|(w' & Hin & ? & ? & ?)]; [now left|].
        right. exists w'. split; [now right|done].
    + destruct (blobstore.Wants Ref wmgr (WRef w));
        (destruct (IH _ _ H Hk) as [Hm|(w' & Hin & ? & ? & ?)]; [now left|];
         right; exists w'; split; [now right|done]).
Qed.

(** Whatever the outcome, nothing is sent when no wanted entry of the
    message is in the local store. *)
Lemma Pour_silent wmgr mIn proc :
  (∀ w, w ∈ mIn → (Dist w < 0)%Z → ∀ f, Get wmgr (WRef w) ≠ Ok f) →
  out (Pour wmgr mIn proc).1 = out proc.
Proof.
  intros Hnone. unfold blobstore.Pour.
  pose proof (Pour_loop_out wmgr mIn proc ∅) as Hout.
  destruct (Pour_loop wmgr mIn proc ∅) as [proc1 [mOut|e]] eqn:Hl; cbn in *;
    [|exact Hout].
  assert (HmOut : mOut = ∅).
  { apply map_empty. intros k. destruct (mOut !! k) as [s|] eqn:Hk; [|done].
    destruct (Pour_loop_reply _ _ _ _ _ _ _ _ Hl Hk) as [Hm|(w & Hin & Hneg & Hs & _)].
    - now rewrite lookup_empty in Hm.
    - apply Size_Ok in Hs as (f & Hg & _). now apply Hnone in Hg. }
  subst mOut. rewrite map_size_empty. cbn. exact Hout.
Qed.

(** C3: after [Pour] has gone through a want message (its keys distinct, as
    the entries of a map are), for every entry [{ref: dist}] with
    [dist < 0]: if the local store has the blob, the reply that is sent maps
    [ref] to the blob's size, which is not negative, and [ref] is no longer
    in [remoteWants]; otherwise [remoteWants[ref]] is [dist - 1] in int64
    arithmetic, which is [dist - 1] unless [dist] is the least int64.  If no
    entry can be answered from the local store, nothing is sent. *)
Theorem Pour_answers wmgr mIn proc proc' :
  NoDup (map (λ w, Ref (WRef w)) mIn) →
  Pour wmgr mIn proc = (proc', Ok tt) →
  (∀ w, w ∈ mIn → (Dist w < 0)%Z →
     (∀ f, Get wmgr (WRef w) = Ok f →
           (0 ≤ Z.of_nat (length f))%Z ∧
           remoteWants proc' !! key w = None ∧
           ∃ mOut, out proc' = out proc ++ [mOut] ∧
                   mOut !! key w = Some (Z.of_nat (length f))) ∧
     ((∀ f, Get wmgr (WRef w) ≠ Ok f) →
           remoteWants proc' !! key w = Some (wrap64 (Dist w - 1)) ∧
           ((- 2 ^ 63 < Dist w)%Z →
            remoteWants proc' !! key w = Some (Dist w - 1)%Z))) ∧
  ((∀ w, w ∈ mIn → (Dist w < 0)%Z → ∀ f, Get wmgr (WRef w) ≠ Ok f) →
   out proc' = out proc).
Proof.
  intros Hnd H. split.
  - intros w Hin Hneg. unfold blobstore.Pour in H.
    pose proof (Pour_loop_out wmgr mIn proc ∅) as Hout.
    destruct (Pour_loop wmgr mIn proc ∅) as [proc1 [mOut|e]] eqn:Hl;
      [|discriminate]. cbn in Hout.
    pose proof (Pour_loop_entry _ _ _ _ _ _ _ Hnd Hl Hin Hneg) as Hent.
    assert (Hrw : remoteWants proc' = remoteWants proc1).
    { destruct (size mOut =? 0)%nat; now injection H as <-. }
    rewrite Hrw. split.
    + intros f Hg. split; [lia|].
      destruct Hent as [(s & Hs & Hm & Hr)|[Hs _]].
      * apply Size_Ok in Hs as (f' & Hg' & ->).
        assert (f' = f) by congruence. subst f'. split; [exact Hr|].
        destruct (size mOut =? 0)%nat eqn:Hsz.
        -- apply Nat.eqb_eq, map_size_empty_iff in Hsz. subst mOut.
           now rewrite lookup_empty in Hm.
        -- injection H as <-. cbn. exists mOut. now rewrite Hout.
      * exfalso. now apply (Size_NoSuchBlob _ _ Hs f).
    + intros Habs.
      destruct Hent as [(s & Hs & _)|[_ Hr]].
      * apply Size_Ok in Hs as (f & Hg & _). now apply Habs in Hg.
      * split; [exact Hr|]. intros Hmin. rewrite Hr.
        rewrite wrap64_small by lia. reflexivity.
  - intros Hnone. pose proof (Pour_silent wmgr mIn proc Hnone) as Hs.
    now rewrite H in Hs.
Qed.

End Store.

(** *** The store on a concrete input *)

Example example_Put_runs :
  (Put example_digest example_Ref example_env example_blob example_world).2
  = Ok example_ref.
Proof. vm_compute. reflexivity. Qed.

Example example_world_wants :
  Wants example_Ref example_world example_ref = true.
Proof. vm_compute. reflexivity. Qed.

Lemma Put_content_addressed_witness :
  Put example_digest example_Ref example_env example_blob example_world
  = (example_world_put, Ok example_ref)
  ∧ Get example_world_put example_ref = Ok [x68; x69].
Proof.
  assert (H : Put example_digest example_Ref example_env example_blob example_world
              = (example_world_put, Ok example_ref)).
  { unfold example_world_put. rewrite <- example_Put_runs. apply surjective_pairing. }
  split; [exact H|].
  destruct (Put_content_addressed example_digest example_Ref
              example_env example_blob example_world _ _ H)
    as (hh & rest & finalPath & _ & _ & _ & _ & _ & _ & _ & _ & Hget & _).
  exact Hget.
Defined.

Lemma Put_clears_want_witness :
  Put example_digest example_Ref example_env example_blob example_world
  = (example_world_put, Ok example_ref)
  ∧ Wants example_Ref example_world example_ref = true
  ∧ Wants example_Ref example_world_put example_ref = false.
Proof.
  assert (H : Put example_digest example_Ref example_env example_blob example_world
              = (example_world_put, Ok example_ref)).
  { unfold example_world_put. rewrite <- example_Put_runs. apply surjective_pairing. }
  assert (Hs : WantManagerSink ∈ sinks example_world) by (vm_compute; left).
  split; [exact H|]. split; [vm_compute; reflexivity|].
  exact (proj1 (proj2 (proj2 (Put_clears_want example_digest example_Ref
              example_env example_blob example_world _ _ Hs H)))).
Defined.

Lemma WantWithDist_frame_witness :
  Get example_world_put example_ref = Ok [x68; x69]
  ∧ WantWithDist example_Ref example_ref (-1)%Z example_world_put
    = (example_world_put, Ok tt).
Proof.
  assert (H : Get example_world_put example_ref = Ok [x68; x69])
    by (vm_compute; reflexivity).
  split; [exact H|].
  exact (proj1 (proj1 (proj2 (WantWithDist_frame example_Ref example_ref (-1)%Z
                                example_world_put)) _ H)).
Defined.

Example example_Pour_runs :
  Pour example_Ref example_world_put example_msg example_proc
  = (mkProc {[example_Ref example_absent_ref := (-3)%Z]}
            [{[example_Ref example_ref := 2%Z]}] [], Ok tt).
Proof. vm_compute. reflexivity. Qed.

Lemma Pour_answers_witness :
  NoDup (map (λ w, example_Ref (WRef w)) example_msg)
  ∧ remoteWants (Pour example_Ref example_world_put example_msg example_proc).1
      !! example_Ref example_absent_ref = Some (-3)%Z.
Proof.
  assert (Hnd : NoDup (map (λ w, example_Ref (WRef w)) example_msg))
    by (apply (bool_decide_unpack _); vm_compute; exact I).
  split; [exact Hnd|].
  assert (Hok : (Pour example_Ref example_world_put example_msg example_proc).2
                = Ok tt) by (vm_compute; reflexivity).
  assert (Hrun : Pour example_Ref example_world_put example_msg example_proc
                 = ((Pour example_Ref example_world_put example_msg example_proc).1,
                    Ok tt)).
  { rewrite <- Hok. apply surjective_pairing. }
  assert (Hin : mkWant example_absent_ref (-2)%Z ∈ example_msg)
    by (right; left).
  assert (Habs : ∀ f, Get example_world_put example_absent_ref ≠ Ok f)
    by (intros f; vm_compute; discriminate).
  destruct (proj1 (Pour_answers example_Ref example_world_put example_msg
                     example_proc _ Hnd Hrun) _ Hin eq_refl) as [_ Hother].
  exact (proj2 (Hother Habs) eq_refl).
Defined.

End blobstore_facts.

(** ** Theorems: sbot/replicate.go *)

Module replicate_facts.
Import replicate.

Lemma add_all refs cur :
  fold_left (λ c ref, mkLister (AddRef ref (feedWants c)) (blocked c)) refs cur
  = mkLister (list_to_set refs ∪ feedWants cur) (blocked cur).
Proof.
  revert cur. induction refs as [|r refs IH]; intros [fw bl]; cbn.
  - f_equal. set_solver.
  - rewrite IH. cbn. unfold AddRef. f_equal. set_solver.
Qed.

Lemma delete_all lst cur :
  fold_left (λ c bf, mkLister (Delete bf (feedWants c)) (blocked c)) lst cur
  = mkLister (feedWants cur ∖ list_to_set lst) (blocked cur).
Proof.
  revert cur. induction lst as [|r lst IH]; intros [fw bl]; cbn.
  - f_equal. set_solver.
  - rewrite IH. cbn. unfold Delete. f_equal. set_solver.
Qed.

(** The updater adds the hop range to the wants it finds, replaces the block
    list by the graph's, and takes the blocked feeds out of the wants. *)
Lemma update_sets builder self hopCount cur g :
  Build builder = Ok g →
  feedWants (update builder self hopCount cur)
  = (feedWants cur ∪ Hops builder self hopCount) ∖ BlockedList g self
  ∧ blocked (update builder self hopCount cur) = BlockedList g self.
Proof.
  intros Hg. unfold update, List. rewrite Hg. cbv zeta.
  rewrite delete_all, add_all. cbn.
  rewrite !list_to_set_elements_L, (comm_L _ (Hops builder self hopCount)).
  split; reflexivity.
Qed.

(** When the graph cannot be built the hop range is added all the same and
    the block list is left as it was. *)
Lemma update_build_failed builder self hopCount cur e :
  Build builder = Err e →
  feedWants (update builder self hopCount cur)
  = feedWants cur ∪ Hops builder self hopCount
  ∧ blocked (update builder self hopCount cur) = blocked cur.
Proof.
  intros Hg. unfold update, List. rewrite Hg. cbv zeta.
  rewrite add_all. cbn.
  rewrite list_to_set_elements_L, (comm_L _ (Hops builder self hopCount)).
  split; reflexivity.
Qed.

Lemma Authorize_Ok l remote :
  Authorize l remote = Ok tt ↔ remote ∈ feedWants l ∧ remote ∉ blocked l.
Proof.
  unfold Authorize, Has. repeat case_bool_decide; split;
    try discriminate; try tauto; done.
Qed.

(** The timer fires the updater once per burst of observed values, and
    every observed value re-arms it for fifteen seconds later. *)
Lemma debounce_fires builder self hopCount st d :
  timer st = Some d → seq st ≠ SeqEmpty →
  replicator_step builder self hopCount st TimerFired
  = mkDebounce SeqEmpty None (update builder self hopCount (current st)).
Proof.
  intros Ht Hs. unfold replicator_step, debounce_step. rewrite Ht.
  destruct (Z.eqb_spec (seq st) SeqEmpty); [contradiction|reflexivity].
Qed.

Lemma debounce_rearms builder self hopCount st newSeq at_ns :
  replicator_step builder self hopCount st (Observed newSeq at_ns)
  = mkDebounce newSeq (Some (at_ns + 15000000000)%Z) (current st).
Proof. reflexivity. Qed.

(** C1, as the code has it: when the timer of the 15-second debounce fires
    after a value was observed, and the graph builds, [Authorize x] answers
    ok exactly for the feeds that were wanted before or are in the hop
    range, less the graph's block list.  A blocked feed is always denied,
    a feed in the hop range that is not blocked is always authorised, and
    starting from no wants [Authorize x] is ok exactly on
    [hops(self, hopCount)] less the blocked feeds. *)
Theorem update_authorize builder self hopCount st d g x :
  Build builder = Ok g →
  timer st = Some d → seq st ≠ SeqEmpty →
  let l := current (replicator_step builder self hopCount st TimerFired) in
  (Authorize l x = Ok tt ↔
     x ∈ (feedWants (current st) ∪ Hops builder self hopCount) ∖ BlockedList g self)
  ∧ blocked l = BlockedList g self
  ∧ (x ∈ blocked l → Authorize l x ≠ Ok tt)
  ∧ (x ∈ Hops builder self hopCount ∖ BlockedList g self → Authorize l x = Ok tt)
  ∧ (feedWants (current st) = ∅ →
     (Authorize l x = Ok tt ↔ x ∈ Hops builder self hopCount ∖ BlockedList g self)).
Proof.
  intros Hg Ht Hs. cbv zeta. rewrite (debounce_fires _ _ _ _ _ Ht Hs). cbn [current].
  destruct (update_sets builder self hopCount (current st) g Hg) as [Hw Hb].
  rewrite !Authorize_Ok, Hw, Hb.
  split; [set_solver|]. split; [reflexivity|]. split; [set_solver|].
  split; [set_solver|]. intros ->. set_solver.
Qed.

Lemma update_authorize_witness :
  Authorize
    (current (replicator_step example_follow_bob "@self" 2
                (mkDebounce 7 (Some 15000000000%Z) newLister) TimerFired)) "@bob"
  = Ok tt.
Proof.
  assert (Hin : "@bob" ∈ Hops example_follow_bob "@self" 2
                          ∖ BlockedList (mkGraph (λ _, ∅)) "@self").
  { change ("@bob" ∈ ({["@bob"]} : gset string) ∖ ∅). set_solver. }
  assert (Hseq : seq (mkDebounce 7 (Some 15000000000%Z) newLister) ≠ SeqEmpty)
    by discriminate.
  exact (proj1 (proj2 (proj2 (proj2 (update_authorize example_follow_bob "@self" 2
            (mkDebounce 7 (Some 15000000000%Z) newLister) 15000000000%Z
            (mkGraph (λ _, ∅)) "@bob" eq_refl eq_refl Hseq)))) Hin).
Defined.

Lemma example_lister_sets :
  feedWants example_lister = {["@bob"]} ∧ blocked example_lister = ∅.
Proof.
  unfold example_lister.
  destruct (update_sets example_follow_nobody "@self" 2
              (update example_follow_bob "@self" 2 newLister)
              (mkGraph (λ _, ∅)) eq_refl) as [-> ->].
  destruct (update_sets example_follow_bob "@self" 2 newLister
              (mkGraph (λ _, ∅)) eq_refl) as [-> _].
  change (((∅ ∪ {["@bob"]}) ∖ ∅ ∪ ∅) ∖ ∅ = ({["@bob"]} : gset string)
          ∧ (∅ : gset string) = ∅).
  split; [set_solver|reflexivity].
Qed.

(** C1 as stated fails: after the node has stopped following [@bob], the
    recomputation leaves [@bob] in [feedWants], outside the hop range, and
    [Authorize] still answers ok. *)
Lemma update_keeps_stale_wants :
  ¬ (Authorize example_lister "@bob" = Ok tt ↔
     "@bob" ∈ Hops example_follow_nobody "@self" 2 ∖ blocked example_lister)
  ∧ "@bob" ∈ feedWants example_lister
  ∧ "@bob" ∉ Hops example_follow_nobody "@self" 2.
Proof.
  destruct example_lister_sets as [Hw Hb].
  change (Hops example_follow_nobody "@self" 2) with (∅ : gset string).
  split; [|split].
  - rewrite Authorize_Ok, Hw, Hb. intros [Hab _].
    assert (Hin : "@bob" ∈ (∅ : gset string) ∖ ∅).
    { apply Hab. split; [now apply elem_of_singleton|apply not_elem_of_empty]. }
    apply elem_of_difference in Hin as [Hin _].
    exact (not_elem_of_empty _ Hin).
  - rewrite Hw. now apply elem_of_singleton.
  - apply not_elem_of_empty.
Qed.

End replicate_facts.

(** ** Theorems: multilogs/userfeeds.go *)

Module multilogs_facts.
Import multilogs.

Lemma IsErrNulled_sentinel : IsErrNulled ErrNulled = true.
Proof. reflexivity. Qed.

Lemma IsErrNulled_wrapped msg e : IsErrNulled (ErrWrap msg e) = IsErrNulled e.
Proof. reflexivity. Qed.

(** C6: an entry whose value is the [Nulled] sentinel is skipped, the update
    succeeds and the multilog is as it was; an entry whose value is any
    other error makes the update return that error. *)
Theorem UserFeedsUpdate_errors (StoredAddr : FeedRef → string) seq e mlog :
  (IsErrNulled e = true →
     UserFeedsUpdate StoredAddr seq (VError e) mlog = (mlog, Ok tt)) ∧
  (IsErrNulled e = false →
     UserFeedsUpdate StoredAddr seq (VError e) mlog = (mlog, Err e)) ∧
  UserFeedsUpdate StoredAddr seq (VError ErrNulled) mlog = (mlog, Ok tt).
Proof.
  cbn. split; [|split]; try reflexivity; now intros ->.
Qed.

Lemma UserFeedsUpdate_errors_witness :
  UserFeedsUpdate (λ f, f) 7 (VError (ErrMsg "unexpected end of file"))
    (mkMultiLog ∅ None None)
  = (mkMultiLog ∅ None None, Err (ErrMsg "unexpected end of file")).
Proof.
  exact (proj1 (proj2 (UserFeedsUpdate_errors (λ f, f) 7
           (ErrMsg "unexpected end of file") (mkMultiLog ∅ None None))) eq_refl).
Defined.

(** A message of a known author is appended to the author's sublog. *)
Lemma UserFeedsUpdate_appends (StoredAddr : FeedRef → string) seq m author subs :
  Author m = Some author →
  UserFeedsUpdate StoredAddr seq (VMessage m) (mkMultiLog subs None None)
  = (mkMultiLog (<[StoredAddr author :=
                     default [] (subs !! StoredAddr author) ++ [seq]]> subs)
                None None, Ok tt).
Proof. intros H. cbn. now rewrite H. Qed.

End multilogs_facts.

(** ** Theorems: sbot/manifest.go *)

Module manifest_facts.
Import manifest.

(** The manifest call answers with the blob, whatever was registered. *)
Lemma manifest_is_fixed req : manifestHandler_HandleCall manifestBlob req = manifestBlob.
Proof. reflexivity. Qed.

Example manifest_lists_names :
  manifest_kind ["names"; "getSignifier"] = Some "async"
  ∧ manifest_kind ["friends"; "isFollowing"] = Some "async"
  ∧ manifest_kind ["blobs"; "createWants"] = Some "source"
  ∧ manifest_kind ["manifest"] = Some "sync".
Proof. repeat split; reflexivity. Qed.

(** C7 fails on the code: [groups.create], [groups.invite] and
    [groups.publishTo] are served by the handler registered on the master
    mux, and [friends.hops] is called by the command line client, yet the
    manifest has no entry for any of them (it has none for [groups] at
    all), while the other methods of [friends] are listed. *)
Theorem manifest_misses_groups :
  (["groups"; "create"], "async") ∈ supported master_registered
  ∧ (["groups"; "invite"], "async") ∈ supported master_registered
  ∧ (["groups"; "publishTo"], "async") ∈ supported master_registered
  ∧ manifest_entry ["groups"] manifestBlob = None
  ∧ manifest_kind ["groups"; "create"] = None
  ∧ manifest_kind ["groups"; "invite"] = None
  ∧ manifest_kind ["groups"; "publishTo"] = None
  ∧ manifest_kind friendsHopsCmd_call.1 = None
  ∧ manifest_kind ["friends"; "isBlocking"] = Some "async".
Proof.
  split; [left|]. split; [right; right; left|]. split; [right; left|].
  repeat split; reflexivity.
Qed.

(** Not every supported method is in the manifest. *)
Lemma manifest_not_exhaustive :
  ¬ (∀ m kind, (m, kind) ∈ supported master_registered → manifest_kind m = Some kind).
Proof.
  intros H. specialize (H ["groups"; "create"] "async").
  assert (Hin : (["groups"; "create"], "async") ∈ supported master_registered) by left.
  specialize (H Hin). discriminate H.
Qed.

End manifest_facts.

(** ** Theorems: message/legacy/types.go *)

Module legacy_facts.
Import legacy.

Section Sign.

Variables (Content PrivateKey Signature : Type).
Variable json_Encode : anyMessage Content Signature → Result error (list byte).
Variable EncodePreserveOrder : list byte → Result error (list byte).
Variable InternalV8Binary : list byte → Result error (list byte).
Variable auth_Sum : list byte → list byte → list byte.
Variable ed25519_Sign : PrivateKey → list byte → list byte.
Variable EncodeSignature : list byte → Signature.
Variable sha256 : list byte → list byte.
Variable RefAlgoMessageSSB1 : string.

Local Abbreviation jsonAndPreserve :=
  (jsonAndPreserve Content Signature json_Encode EncodePreserveOrder).
Local Abbreviation Sign :=
  (Sign Content PrivateKey Signature json_Encode EncodePreserveOrder
        InternalV8Binary auth_Sum ed25519_Sign EncodeSignature sha256
        RefAlgoMessageSSB1).
Local Abbreviation toBeSigned := (toBeSigned auth_Sum).

(** The canonical bytes are the JSON encoding passed through the
    order-preserving printer. *)
Lemma jsonAndPreserve_Ok msg pp :
  jsonAndPreserve msg = Ok pp ↔
  ∃ buf, json_Encode msg = Ok buf ∧ EncodePreserveOrder buf = Ok pp.
Proof.
  unfold legacy.jsonAndPreserve. destruct (json_Encode msg) as [buf|e].
  - destruct (EncodePreserveOrder buf) as [pp'|e'] eqn:E.
    + split; [intros [= <-]; eauto|]. intros (buf' & [= <-] & H). congruence.
    + split; [discriminate|]. intros (buf' & [= <-] & H). congruence.
  - split; [discriminate|]. now intros (buf' & [=] & _).
Qed.

(** C5: [Sign] signs with Ed25519 the canonical bytes of the unsigned
    message, or their HMAC under the configured key; the bytes it returns
    are the canonical bytes of the message with that signature, and the
    reference it returns hashes those bytes, after the v8 escape transform,
    with SHA-256, under the SSB1 message algorithm. *)
Theorem Sign_spec msg priv hmacSecret mr ppWithSig :
  Sign msg priv hmacSecret = Ok (mr, ppWithSig) →
  ∃ pp v8warp,
    jsonAndPreserve (Unsigned _ _ msg) = Ok pp ∧
    jsonAndPreserve
      (Signed _ _ (mkSignedLegacyMessage _ _ msg
         (EncodeSignature (ed25519_Sign priv (toBeSigned pp hmacSecret)))))
    = Ok ppWithSig ∧
    InternalV8Binary ppWithSig = Ok v8warp ∧
    MHash mr = sha256 v8warp ∧
    MAlgo mr = RefAlgoMessageSSB1 ∧
    (hmacSecret = None → toBeSigned pp hmacSecret = pp) ∧
    (∀ secret, hmacSecret = Some secret →
               toBeSigned pp hmacSecret = auth_Sum pp secret).
Proof.
  unfold legacy.Sign. intros H.
  destruct (jsonAndPreserve (Unsigned _ _ msg)) as [pp|e] eqn:Hpp; [|discriminate].
  change (match hmacSecret with Some secret => auth_Sum pp secret | None => pp end)
    with (toBeSigned pp hmacSecret) in H.
  destruct (jsonAndPreserve (Signed _ _ _)) as [pws|e] eqn:Hpws; [|discriminate].
  destruct (InternalV8Binary pws) as [v8|e] eqn:Hv8; [|discriminate].
  injection H as <- <-. exists pp, v8.
  repeat split; try done.
  - now intros ->.
  - now intros secret ->.
Qed.

(** [Sign] fails only where the encoder, the printer or the escape
    transform does. *)
Lemma Sign_total msg priv hmacSecret pp ppWithSig v8warp :
  jsonAndPreserve (Unsigned _ _ msg) = Ok pp →
  jsonAndPreserve
    (Signed _ _ (mkSignedLegacyMessage _ _ msg
       (EncodeSignature (ed25519_Sign priv (toBeSigned pp hmacSecret)))))
  = Ok ppWithSig →
  InternalV8Binary ppWithSig = Ok v8warp →
  Sign msg priv hmacSecret
  = Ok (mkMessageRef (sha256 v8warp) RefAlgoMessageSSB1, ppWithSig).
Proof.
  intros Hpp Hpws Hv8. unfold legacy.Sign. rewrite Hpp.
  change (match hmacSecret with Some secret => auth_Sum pp secret | None => pp end)
    with (toBeSigned pp hmacSecret). now rewrite Hpws, Hv8.
Qed.

End Sign.

Example example_Sign_plain :
  example_Sign None
  = Ok (mkMessageRef (example_digest [x7b; x53; x01; x7b; x0a; x0a; x00]) "ssb1",
        [x7b; x53; x01; x7b; x0a; x0a]).
Proof. reflexivity. Qed.

Example example_Sign_hmac :
  example_Sign (Some [x6b])
  = Ok (mkMessageRef (example_digest [x7b; x53; x01; x4d; x6b; x0a; x00]) "ssb1",
        [x7b; x53; x01; x4d; x6b; x0a]).
Proof. reflexivity. Qed.

Lemma Sign_spec_witness :
  ∃ pp v8warp,
    pp = [x7b; x0a] ∧ v8warp = [x7b; x53; x01; x4d; x6b; x0a; x00] ∧
    example_Sign (Some [x6b])
    = Ok (mkMessageRef (example_digest v8warp) "ssb1",
          [x7b; x53; x01; x4d; x6b; x0a]).
Proof.
  destruct (Sign_spec _ _ _ _ _ _ _ _ _ _ _ _ _ _ _ _ example_Sign_hmac)
    as (pp & v8warp & Hpp & _ & Hv8 & _).
  injection Hpp as <-. injection Hv8 as <-.
  eexists _, _. split; [reflexivity|]. split; [reflexivity|].
  exact example_Sign_hmac.
Defined.

End legacy_facts.

(** ** Theorems: plugins2/names/getSignifier.go *)

Module names_facts.
Import names.

Section GetSignifier.

Variable Request : Type.
Variable parseFeedRefFromArgs : Request → Result error FeedRef.
Variable CollectedFor : FeedRef → Result error AboutInfo.
Variable Ref : FeedRef → string.

Local Abbreviation HandleAsync :=
  (HandleAsync Request parseFeedRefFromArgs CollectedFor Ref).

(** C8: when the about record of a feed has a chosen name that is not
    empty, [getSignifier] returns it, whatever names others prescribed and
    whichever of them the map iteration would visit first. *)
Theorem HandleAsync_chosen pick req ref ai :
  parseFeedRefFromArgs req = Ok ref →
  CollectedFor ref = Ok ai →
  Chosen (Name ai) ≠ EmptyString →
  HandleAsync pick req = Ok (Chosen (Name ai)).
Proof.
  intros Hp Hc Hne. unfold names.HandleAsync. rewrite Hp, Hc.
  destruct (String.eqb_spec (Chosen (Name ai)) EmptyString) as [E|_];
    [contradiction|reflexivity].
Qed.

(** Without a chosen name the answer is a prescribed name, or the feed
    reference itself. *)
Lemma HandleAsync_fallback pick req ref ai name :
  parseFeedRefFromArgs req = Ok ref →
  CollectedFor ref = Ok ai →
  Chosen (Name ai) = EmptyString →
  HandleAsync pick req = Ok name →
  name = Ref ref ∨ is_Some (Prescribed (Name ai) !! name).
Proof.
  intros Hp Hc He. unfold names.HandleAsync. rewrite Hp, Hc, He. cbn.
  unfold range_first.
  destruct (((map_to_list (Prescribed (Name ai))).*1) !! _) as [n|] eqn:Hk; cbn.
  - destruct (String.eqb_spec n EmptyString) as [_|_]; intros [= <-];
      [now left|right].
    apply list_elem_of_lookup_2, list_elem_of_fmap in Hk as ([k v] & -> & Hin).
    apply elem_of_map_to_list in Hin. cbn. eauto.
  - intros [= <-]. now left.
Qed.

End GetSignifier.

Lemma HandleAsync_chosen_witness : example_getSignifier 0 = Ok "N1".
Proof.
  refine (HandleAsync_chosen string (λ req, Ok req) (λ _, Ok example_about)
            (λ ref, ref) 0 "@alice" "@alice" example_about eq_refl eq_refl _).
  discriminate.
Defined.

End names_facts.

(** ** Theorems: private/box2/encoding.go *)

Module box2_facts.
Import box2.

Lemma PutUint16_small n :
  n < 65536 →
  PutUint16 (uint16 n) = [byte_of_N (n mod 256); byte_of_N (n / 256)].
Proof.
  intros Hn. unfold PutUint16, uint16.
  rewrite (N.mod_small n 65536) by lia.
  rewrite N.shiftr_div_pow2. change (2 ^ 8) with 256.
  f_equal.
  unfold byte_of_N. rewrite N.Div0.mod_mod by lia. reflexivity.
Qed.

Lemma le16_value_frame n :
  n < 65536 →
  le16_value (byte_of_N (n mod 256)) (byte_of_N (n / 256)) = n.
Proof.
  intros Hn. unfold le16_value. rewrite !to_N_byte_of_N.
  rewrite N.Div0.mod_mod by lia.
  assert (n / 256 < 256) by (apply N.Div0.div_lt_upper_bound; lia).
  rewrite (N.mod_small (n / 256)) by lia.
  pose proof (N.div_mod n 256). lia.
Qed.

Lemma EncodeSLP_cons out elem rest :
  EncodeSLP out (elem :: rest) =
  EncodeSLP (encodeUint16 out (uint16 (N.of_nat (length elem))) ++ elem) rest.
Proof. reflexivity. Qed.

(** C9: for every list of byte strings each shorter than 2^16 bytes,
    [EncodeSLP] appends to [out], element by element and in order, the
    element's length as a little-endian uint16 (two bytes whose value,
    least significant byte first, is the length) followed by the element's
    bytes; for the empty list it appends nothing. *)
Theorem EncodeSLP_spec (out : list byte) (l : list (list byte)) :
  Forall (fun elem => N.of_nat (length elem) < 65536) l →
  EncodeSLP out l = out ++ concat (map slp_frame l)
  ∧ Forall (fun elem =>
       ∃ b0 b1, slp_frame elem = b0 :: b1 :: elem
                ∧ le16_value b0 b1 = N.of_nat (length elem)) l
  ∧ EncodeSLP out [] = out.
Proof.
  intros Hl. split; [|split; [|reflexivity]].
  - revert out. induction Hl as [|elem rest Hlen _ IH]; intros out.
    + cbn. now rewrite app_nil_r.
    + rewrite EncodeSLP_cons, IH. unfold encodeUint16.
      rewrite PutUint16_small by exact Hlen.
      cbn [map concat]. unfold slp_frame at 2.
      rewrite <- !app_assoc. reflexivity.
  - eapply Forall_impl; [exact Hl|]. cbn beta. intros elem Hlen.
    eexists _, _. split; [reflexivity|].
    now apply le16_value_frame.
Qed.

Lemma EncodeSLP_spec_witness :
  box2.EncodeSLP [x01] [[x61; x62; x63]; []]
  = [x01] ++ concat (map box2.slp_frame [[x61; x62; x63]; []]).
Proof.
  refine (proj1 (EncodeSLP_spec [x01] [[x61; x62; x63]; []] _)).
  repeat constructor.
Defined.

Example EncodeSLP_run :
  box2.EncodeSLP [] [[x61; x62; x63]; []; [xff]]
  = [x03; x00; x61; x62; x63; x00; x00; x01; x00; xff].
Proof. reflexivity. Qed.

End box2_facts.

(** ** More on private/box2/encoding.go *)

Module box2_more.
Import box2 box2_derive.

Lemma EncodeSLP_frames out l :
  EncodeSLP out l = out ++ concat (map slp_frame_any l).
Proof.
  revert out. induction l as [|elem rest IH]; intros out.
  - cbn. now rewrite app_nil_r.
  - change (EncodeSLP out (elem :: rest))
      with (EncodeSLP (encodeUint16 out (uint16 (N.of_nat (length elem))) ++ elem) rest).
    rewrite IH. unfold encodeUint16, slp_frame_any. cbn [map concat].
    now rewrite <- !app_assoc.
Qed.

(** Encoding a list in two parts, the second onto the output of the first,
    is encoding it at once; and the bytes appended do not depend on what
    [out] held. *)
Theorem EncodeSLP_app out l1 l2 :
  EncodeSLP out (l1 ++ l2) = EncodeSLP (EncodeSLP out l1) l2
  ∧ EncodeSLP out l1 = out ++ EncodeSLP [] l1.
Proof.
  split.
  - unfold EncodeSLP. apply fold_left_app.
  - rewrite (EncodeSLP_frames out), (EncodeSLP_frames []). reflexivity.
Qed.

(** Every element costs its own length and two bytes, also when it is too
    long for its length to fit the prefix. *)
Theorem EncodeSLP_length out l :
  length (EncodeSLP out l)
  = (length out + list_sum (map (λ elem, 2 + length elem) l))%nat.
Proof.
  rewrite EncodeSLP_frames, length_app. f_equal.
  induction l as [|elem rest IH]; [reflexivity|].
  cbn [map concat list_sum]. rewrite length_app, IH.
  unfold slp_frame_any, PutUint16. rewrite length_app. reflexivity.
Qed.

(** The length prefix is the length modulo 2^16: an element of 2^16 bytes
    or more is written with the prefix of a shorter one. *)
Theorem EncodeSLP_prefix_wraps out elem :
  ∃ b0 b1,
    EncodeSLP out [elem] = out ++ b0 :: b1 :: elem
    ∧ le16_value b0 b1 = N.of_nat (length elem) mod 65536.
Proof.
  exists (byte_of_N (uint16 (N.of_nat (length elem)))),
         (byte_of_N (N.shiftr (uint16 (N.of_nat (length elem))) 8)).
  split.
  - rewrite EncodeSLP_frames. cbn [map concat]. rewrite app_nil_r. reflexivity.
  - unfold le16_value, uint16. rewrite !to_N_byte_of_N.
    set (n := N.of_nat (length elem) mod 65536).
    assert (Hn : n < 65536) by (apply N.mod_upper_bound; lia).
    rewrite N.shiftr_div_pow2. change (2 ^ 8) with 256.
    assert (n / 256 < 256) by (apply N.Div0.div_lt_upper_bound; lia).
    rewrite (N.mod_small (n / 256)) by lia.
    pose proof (N.div_mod n 256). lia.
Qed.

Lemma slp_frame_any_short elem :
  short elem → slp_frame_any elem = slp_frame elem.
Proof.
  intros H. unfold slp_frame_any, slp_frame.
  rewrite box2_facts.PutUint16_small by exact H. reflexivity.
Qed.

Lemma slp_frame_inj e1 e2 r1 r2 :
  short e1 → short e2 →
  slp_frame e1 ++ r1 = slp_frame e2 ++ r2 → e1 = e2 ∧ r1 = r2.
Proof.
  intros H1 H2 H. unfold slp_frame in H. cbn in H.
  injection H as Hb0 Hb1 Hrest.
  assert (Hlen : N.of_nat (length e1) = N.of_nat (length e2)).
  { rewrite <- (box2_facts.le16_value_frame _ H1),
            <- (box2_facts.le16_value_frame _ H2).
    now rewrite Hb0, Hb1. }
  apply Nat2N.inj in Hlen.
  now apply app_inj_1 in Hrest.
Qed.

(** The encoding is unambiguous on elements shorter than 2^16 bytes: two
    such lists with the same encoding are the same list. *)
Theorem EncodeSLP_inj out l1 l2 :
  Forall short l1 → Forall short l2 →
  EncodeSLP out l1 = EncodeSLP out l2 → l1 = l2.
Proof.
  intros H1 H2. rewrite !EncodeSLP_frames. intros H. apply app_inv_head in H.
  revert l2 H2 H. induction H1 as [|e1 l1 He1 _ IH]; intros l2 H2 H.
  - destruct H2 as [|e2 l2 He2 _]; [reflexivity|].
    cbn [map concat] in H. rewrite (slp_frame_any_short _ He2) in H. discriminate H.
  - destruct H2 as [|e2 l2 He2 H2].
    + cbn [map concat] in H. rewrite (slp_frame_any_short _ He1) in H. discriminate H.
    + cbn [map concat] in H.
      rewrite (slp_frame_any_short _ He1), (slp_frame_any_short _ He2) in H.
      apply slp_frame_inj in H as [-> H]; [|assumption..].
      f_equal. now apply IH.
Qed.

Lemma EncodeSLP_inj_witness :
  EncodeSLP [] [[x61]; []] = EncodeSLP [] [[x61]; []] ∧ [[x61]; []] = [[x61]; @nil byte].
Proof.
  split; [reflexivity|].
  assert (H : Forall short [[x61]; []]) by (repeat constructor).
  exact (EncodeSLP_inj [] _ _ H H eq_refl).
Defined.

Section DeriveTo.

Variable hkdf_Read : list byte → list byte → nat → list byte * option error.

Local Abbreviation DeriveTo := (DeriveTo hkdf_Read).

(** [DeriveTo] refuses an output buffer that is not 32 bytes long and
    leaves it as it was; when it succeeds the buffer holds the 32 bytes read
    from HKDF for the info string [EncodeSLP(nil, infos...)]. *)
Theorem DeriveTo_buffer out key infos :
  (length out ≠ 32%nat →
     ∃ e, DeriveTo out key infos = (out, Err e))
  ∧ (∀ out', DeriveTo out key infos = (out', Ok tt) →
       length out = 32%nat ∧ length out' = 32%nat ∧
       out' = (hkdf_Read key (EncodeSLP [] infos) 32).1).
Proof.
  unfold box2_derive.DeriveTo. split.
  - intros Hne. destruct (Nat.eqb_spec (length out) 32) as [E|_]; [contradiction|].
    cbn. eauto.
  - intros out'. destruct (Nat.eqb_spec (length out) 32) as [E|_]; [|discriminate].
    cbn [negb]. rewrite E.
    destruct (hkdf_Read key (EncodeSLP [] infos) 32) as [read [e|]]; [discriminate|].
    destruct (Nat.eqb_spec (length read) 32) as [El|_]; [|discriminate].
    cbn [negb]. intros [= <-]. cbn [fst].
    assert (Hout : take 32 read ++ drop (length read) out = read).
    { rewrite (drop_ge out) by lia. rewrite (take_ge read) by lia.
      apply app_nil_r. }
    rewrite Hout. split; [reflexivity|]. split; [exact El|reflexivity].
Qed.

End DeriveTo.

Lemma DeriveTo_buffer_witness :
  ∃ e, box2_derive.DeriveTo example_hkdf_Read [x00] [x6b] [[x61]] = ([x00], Err e).
Proof.
  refine (proj1 (DeriveTo_buffer example_hkdf_Read [x00] [x6b] [[x61]]) _).
  cbn. lia.
Defined.

End box2_more.

(** ** More on the blob store *)

Module blobstore_more.
Import refs blobstore blobstore_ops.

Lemma hexdigit_not_dot n : hexdigit n ≠ "."%char.
Proof.
  unfold hexdigit. destruct n as [|p]; [discriminate|].
  do 5 (try destruct p as [p|p|]); discriminate.
Qed.

Lemma hex_dot_inj a b x y :
  String.append (hex_EncodeToString a) (String "." x)
  = String.append (hex_EncodeToString b) (String "." y) →
  a = b ∧ x = y.
Proof.
  revert b. induction a as [|v a IH]; intros [|v' b] H; cbn in H.
  - injection H as ->. now split.
  - injection H as H _. symmetry in H. now apply hexdigit_not_dot in H.
  - injection H as H _. now apply hexdigit_not_dot in H.
  - injection H as Hhi Hlo Hrest.
    apply IH in Hrest as [-> ->].
    rewrite (byte_nibbles_inj _ _ Hhi Hlo). now split.
Qed.

Lemma example_Ref_inj : Inj (=) (=) example_Ref.
Proof.
  intros [h a] [h' a'] H. unfold example_Ref in H. cbn in H.
  injection H as H. apply hex_dot_inj in H as [-> ->]. reflexivity.
Qed.

Section Store.

Variable sha256 : list byte → list byte.
Variable Ref : BlobRef → string.

Local Abbreviation Put := (Put sha256 Ref).
Local Abbreviation Delete := (Delete Ref).
Local Abbreviation WantWithDist := (WantWithDist Ref).
Local Abbreviation run := (run sha256 Ref).
Local Abbreviation apply_op := (apply_op sha256 Ref).
Local Abbreviation refOf := (refOf sha256).
Local Abbreviation visible_ok := (visible_ok sha256).
Local Abbreviation present_not_wanted := (present_not_wanted Ref).

Lemma Get_files store store' ref :
  basePath store' = basePath store →
  (∀ p, getPath store ref = Ok p → files store' !! p = files store !! p) →
  Get store' ref = Get store ref.
Proof.
  intros Hb Hf. unfold Get.
  rewrite (blobstore_facts.getPath_basePath store store' ref Hb).
  destruct (getPath store ref) as [p|e] eqn:Hp; [|reflexivity].
  now rewrite (Hf p eq_refl).
Qed.

Lemma WantWithDist_frame_files ref dist w :
  basePath (WantWithDist ref dist w).1 = basePath w ∧
  files (WantWithDist ref dist w).1 = files w ∧
  sinks (WantWithDist ref dist w).1 = sinks w.
Proof. unfold blobstore.WantWithDist. now destruct (Get w ref). Qed.

Lemma Delete_frame notify ref w :
  basePath (Delete notify ref w).1 = basePath w ∧
  sinks (Delete notify ref w).1 = sinks w ∧
  wants (Delete notify ref w).1 = wants w ∧
  (∀ p, files (Delete notify ref w).1 !! p = None ∨
        files (Delete notify ref w).1 !! p = files w !! p).
Proof.
  unfold blobstore.Delete.
  destruct (getPath w ref) as [p|]; [|cbn; repeat split; now right].
  destruct (files w !! p) eqn:Hf; [|cbn; repeat split; now right].
  match goal with
  | |- context [sink_Pour Ref ?o ?n ?w'] =>
      destruct (blobstore_facts.sink_Pour_frame Ref o n w') as (Hb & Hfi & Hs & _ & _);
      pose proof (blobstore_facts.sink_Pour_wants Ref o n w') as Hw;
      destruct (sink_Pour Ref o n w') as [st' [[]|e]]
  end; cbn in *;
    (split; [exact Hb|]; split; [exact Hs|]; split;
     [apply map_eq; intros k; rewrite Hw;
      rewrite bool_decide_eq_false_2; [reflexivity|intros (_ & [=] & _)]
     |intros q; rewrite Hfi; destruct (decide (p = q)) as [->|Hne];
      [left; apply lookup_delete_eq|right; now apply lookup_delete_ne]]).
Qed.

Lemma Put_frame env blob w :
  basePath (Put env blob w).1 = basePath w ∧ sinks (Put env blob w).1 = sinks w.
Proof.
  destruct (blobstore_facts.Put_cases sha256 Ref env blob w)
    as [->|[->|(finalPath & Hfp & ->)]]; [done|done|].
  match goal with
  | |- context [sink_Pour Ref ?o ?n ?w'] =>
      destruct (blobstore_facts.sink_Pour_frame Ref o n w') as (-> & _ & -> & _ & _)
  end. done.
Qed.

(** *** Invariants along any sequence of operations *)

Lemma apply_op_visible_ok w op : visible_ok w → visible_ok (apply_op w op).
Proof.
  intros Hinv. destruct op as [env blob|notify ref|ref dist]; cbn.
  - now apply blobstore_facts.Put_visible_ok.
  - now apply blobstore_facts.Delete_visible_ok.
  - destruct (WantWithDist_frame_files ref dist w) as (Hb & Hf & _).
    intros r p stored Hp Hl. rewrite Hf in Hl.
    rewrite (blobstore_facts.getPath_basePath _ _ r Hb) in Hp.
    now apply (Hinv r p stored).
Qed.

(** Whatever is put, deleted or wanted, and whatever fails on the way, a
    store that started empty only ever shows, at the path of a reference,
    bytes whose digest is the reference. *)
Theorem run_visible_ok base ops :
  visible_ok (run ops (NewWantManager (New base))).
Proof.
  assert (H0 : visible_ok (NewWantManager (New base))).
  { intros ref p stored _ H. cbn in H. now rewrite lookup_empty in H. }
  revert H0. generalize (NewWantManager (New base)).
  induction ops as [|op ops IH]; intros w Hw; [exact Hw|].
  cbn. apply IH. now apply apply_op_visible_ok.
Qed.

Lemma Delete_present_not_wanted notify ref w :
  present_not_wanted w → present_not_wanted (Delete notify ref w).1.
Proof.
  intros Hinv r f Hg.
  destruct (Delete_frame notify ref w) as (Hb & _ & Hw & Hf).
  rewrite Hw. apply blobstore_facts.Get_Ok in Hg as (p & Hp & Hl).
  rewrite (blobstore_facts.getPath_basePath _ _ r Hb) in Hp.
  destruct (Hf p) as [Hnone|Hsame]; [congruence|].
  rewrite Hsame in Hl. apply (Hinv r f). apply blobstore_facts.Get_Ok. eauto.
Qed.

Lemma apply_op_sinks w op : sinks (apply_op w op) = sinks w.
Proof.
  destruct op as [env blob|notify ref|ref dist]; cbn.
  - apply Put_frame.
  - apply Delete_frame.
  - apply WantWithDist_frame_files.
Qed.


(** *** Put and Delete, blob by blob *)

Lemma refOf_valid blob :
  IsValid (refOf blob) = Ok tt ↔ length (sha256 (data blob)) = 32%nat.
Proof.
  rewrite blobstore_facts.IsValid_Ok. cbn. split; [now intros [_ ?]|now split].
Qed.

Lemma Put_Ok_Get env blob store store' ref :
  Put env blob store = (store', Ok ref) →
  ref = refOf blob ∧ Get store' ref = Ok (data blob).
Proof.
  intros H.
  apply (blobstore_facts.Put_Ok_inv sha256 Ref) in H as (finalPath & -> & Hp & ->).
  split; [reflexivity|].
  match goal with
  | |- context [sink_Pour Ref ?o ?n ?w] =>
      destruct (blobstore_facts.sink_Pour_frame Ref o n w) as (Hb & Hf & _ & _ & _);
      remember (sink_Pour Ref o n w).1 as st' eqn:Est; clear Est
  end.
  cbn in Hb, Hf. apply blobstore_facts.Get_Ok. exists finalPath. split.
  - etrans; [apply blobstore_facts.getPath_basePath, Hb|exact Hp].
  - rewrite Hf. apply lookup_insert_eq.
Qed.

(** [Put] succeeds exactly when every step it asks of its environment does
    and the digest has the 32 bytes of a valid reference: what the store
    already holds never makes it fail. *)
Theorem Put_succeeds_iff env blob store :
  (∃ store' ref, Put env blob store = (store', Ok ref)) ↔
  env_ok env blob ∧ length (sha256 (data blob)) = 32%nat.
Proof.
  split.
  - intros (store' & ref & H). split.
    + unfold blobstore.Put in H. unfold env_ok.
      destruct (create_err env); [discriminate|].
      destruct (ending blob) eqn:He; [| |discriminate];
        (destruct (close_err env); [discriminate|];
         destruct (getHexDirPath _ _); [|discriminate];
         destruct (mkdir env) eqn:Hm; [| |discriminate];
         (destruct (getPath _ _); [|discriminate];
          destruct (rename_err env); [discriminate|];
          unfold sink_Pour in H; destruct (notify_err env); [discriminate|];
          repeat split; try reflexivity; intros e' [=])).
    + apply blobstore_facts.Put_Ok_inv in H as (finalPath & -> & Hp & _).
      apply blobstore_facts.getPath_Ok in Hp as [Hv _].
      now apply refOf_valid.
  - intros [(Hc & He & Hcl & Hm & Hr & Hn) Hl]. apply refOf_valid in Hl.
    unfold blobstore.Put. rewrite Hc, Hcl, Hr.
    unfold getHexDirPath, getPath. unfold refOf in Hl. rewrite Hl.
    unfold sink_Pour. rewrite Hn.
    destruct (ending blob) as [| |e]; [| |now destruct (He e)];
      (destruct (mkdir env) as [| |e]; [| |now destruct (Hm e)]; eauto).
Qed.

Lemma Put_files_other env blob store ref p :
  ref ≠ refOf blob → getPath store ref = Ok p →
  basePath (Put env blob store).1 = basePath store
  ∧ files (Put env blob store).1 !! p = files store !! p.
Proof.
  intros Hne Hp.
  destruct (blobstore_facts.Put_cases sha256 Ref env blob store)
    as [->|[->|(finalPath & Hfp & ->)]]; [now split| |].
  - split; [reflexivity|]. cbn.
    apply lookup_insert_ne. intros <-.
    now apply blobstore_facts.getTmpPath_not_visible in Hp.
  - match goal with
    | |- context [sink_Pour Ref ?o ?n ?w] =>
        destruct (blobstore_facts.sink_Pour_frame Ref o n w) as (Hb & Hf & _ & _ & _);
        remember (sink_Pour Ref o n w).1 as st' eqn:Est; clear Est
    end.
    cbn in Hb, Hf. split; [exact Hb|]. rewrite Hf.
    rewrite lookup_insert_ne.
    + rewrite lookup_delete_ne, lookup_insert_ne; [reflexivity|..];
        intros <-; now apply blobstore_facts.getTmpPath_not_visible in Hp.
    + intros <-. apply Hne. exact (blobstore_facts.getPath_inj _ _ _ _ _ Hp Hfp).
Qed.

(** [Put] never changes what is read for another reference, whether it
    succeeds or fails, and whatever it leaves in the staging directory. *)
Theorem Put_keeps_others env blob store ref :
  ref ≠ refOf blob →
  Get (Put env blob store).1 ref = Get store ref.
Proof.
  intros Hne. unfold Get.
  destruct (getPath store ref) as [p|e] eqn:Hp.
  - destruct (Put_files_other env blob store ref p Hne Hp) as [Hb Hf].
    rewrite (blobstore_facts.getPath_basePath _ _ ref Hb), Hp.
    now rewrite Hf.
  - rewrite (blobstore_facts.getPath_basePath store (Put env blob store).1 ref).
    + now rewrite Hp.
    + apply Put_frame.
Qed.

(** When only the notification fails, [Put] reports the error although the
    blob has been moved into place and can be read. *)
Theorem Put_notify_failure env blob store e :
  env_ok (mkEnv (now env) (create_err env) (close_err env) (mkdir env)
                (rename_err env) None) blob →
  length (sha256 (data blob)) = 32%nat →
  notify_err env = Some e →
  (Put env blob store).2
  = Err (ErrWrap "blobstore.Put: error in notification handler" e)
  ∧ Get (Put env blob store).1 (refOf blob) = Ok (data blob).
Proof.
  intros (Hc & He & Hcl & Hm & Hr & _) Hl Hn. cbn in Hc, Hcl, Hm, Hr.
  pose proof (proj2 (refOf_valid blob) Hl) as Hv.
  destruct (blobstore_facts.getPath_valid store (refOf blob) Hv) as [finalPath Hp].
  assert (Hput : Put env blob store =
    ((sink_Pour Ref (Some e) (mkNotification BlobStoreOpPut (refOf blob))
        (set_files (<[finalPath := data blob]>
                      (delete (getTmpPath store (now env))
                         (<[getTmpPath store (now env) := data blob]> (files store))))
           (set_files (<[getTmpPath store (now env) := data blob]> (files store))
              store))).1,
     Err (ErrWrap "blobstore.Put: error in notification handler" e))).
  { unfold blobstore.Put. rewrite Hc, Hcl, Hr, Hn.
    unfold getHexDirPath. unfold refOf in Hv, Hp. rewrite Hv.
    rewrite (blobstore_facts.getPath_basePath store
               (set_files (<[getTmpPath store (now env) := data blob]> (files store))
                  store) _ eq_refl), Hp.
    destruct (ending blob) as [| |e']; [| |now destruct (He e')];
      (destruct (mkdir env) as [| |e']; [| |now destruct (Hm e')]; reflexivity). }
  rewrite Hput. split; [reflexivity|]. cbn [fst].
  match goal with
  | |- context [sink_Pour Ref ?o ?n ?w] =>
      destruct (blobstore_facts.sink_Pour_frame Ref o n w) as (Hb & Hf & _ & _ & _);
      remember (sink_Pour Ref o n w).1 as st' eqn:Est; clear Est
  end.
  cbn in Hb, Hf. apply blobstore_facts.Get_Ok. exists finalPath. split.
  - etrans; [apply blobstore_facts.getPath_basePath, Hb|exact Hp].
  - rewrite Hf. apply lookup_insert_eq.
Qed.

(** Putting the same bytes again gives the same reference and changes
    nothing that can be read from the store. *)
Theorem Put_idempotent env1 env2 blob1 blob2 s0 s1 s2 r1 r2 :
  data blob2 = data blob1 →
  Put env1 blob1 s0 = (s1, Ok r1) →
  Put env2 blob2 s1 = (s2, Ok r2) →
  r2 = r1 ∧ ∀ ref, Get s2 ref = Get s1 ref.
Proof.
  intros Hd H1 H2.
  apply Put_Ok_Get in H1 as [-> Hg1].
  assert (Hk : ∀ ref, ref ≠ refOf blob2 → Get s2 ref = Get s1 ref).
  { intros ref Hne. apply Get_files.
    - pose proof (Put_frame env2 blob2 s1) as [Hb _]. now rewrite H2 in Hb.
    - intros p Hp. pose proof (Put_files_other env2 blob2 s1 ref p Hne Hp) as [_ Hf].
      now rewrite H2 in Hf. }
  apply Put_Ok_Get in H2 as [-> Hg2].
  assert (Er : refOf blob2 = refOf blob1) by (unfold refOf; now rewrite Hd).
  split; [exact Er|]. intros ref.
  destruct (decide (ref = refOf blob2)) as [->|Hne]; [|now apply Hk].
  rewrite Hg2, Hd, Er. now rewrite Hg1.
Qed.


(** [Delete] of a blob that is not there, or of an invalid reference, is an
    error and changes nothing; only the first is [ErrNoSuchBlob]. *)
Theorem Delete_absent notify ref store e :
  Get store ref = Err e →
  (Delete notify ref store).1 = store
  ∧ (∃ e', (Delete notify ref store).2 = Err e')
  ∧ ((Delete notify ref store).2 = Err ErrNoSuchBlob ↔ IsValid ref = Ok tt).
Proof.
  unfold Get, blobstore.Delete.
  destruct (getPath store ref) as [p|e0] eqn:Hp.
  - destruct (files store !! p); [discriminate|]. intros _. cbn.
    split; [reflexivity|]. split; [eauto|].
    apply blobstore_facts.getPath_Ok in Hp as [Hv _]. now split.
  - intros _. cbn. split; [reflexivity|]. split; [eauto|].
    split; [discriminate|]. intros Hv.
    destruct (blobstore_facts.getPath_valid store ref Hv) as [p' Hp']. congruence.
Qed.

(** *** wantProc: fetches, failures and the change handler *)

Local Abbreviation Pour := (Pour Ref).
Local Abbreviation Pour_loop := (Pour_loop Ref).
Local Abbreviation wantProc_onChange := (wantProc_onChange Ref).
Local Abbreviation fetched := (fetched Ref).

Lemma Size_Err_cases store ref e :
  Size store ref = Err e →
  (e = ErrNoSuchBlob ∧ IsValid ref = Ok tt) ∨
  (e ≠ ErrNoSuchBlob ∧ IsValid ref ≠ Ok tt).
Proof.
  unfold Size. destruct (getPath store ref) as [p|e0] eqn:Hp.
  - destruct (files store !! p); [discriminate|]. intros [= <-]. left.
    apply blobstore_facts.getPath_Ok in Hp as [Hv _]. now split.
  - intros [= <-]. right. split; [discriminate|]. intros Hv.
    destruct (blobstore_facts.getPath_valid store ref Hv) as [p Hp']. congruence.
Qed.

Lemma Pour_loop_fetching wmgr mIn proc mOut proc' mOut' :
  Pour_loop wmgr mIn proc mOut = (proc', Ok mOut') →
  fetching proc' = fetching proc ++ fetched wmgr mIn.
Proof.
  revert proc mOut. induction mIn as [|w rest IH]; intros proc mOut H; cbn in H.
  - injection H as <- _. unfold blobstore_ops.fetched. cbn. now rewrite app_nil_r.
  - unfold blobstore_ops.fetched. rewrite filter_cons.
    destruct (Dist w <? 0)%Z eqn:Hneg.
    + apply Z.ltb_lt in Hneg. rewrite decide_False by lia.
      destruct (Size wmgr (WRef w)) as [sz|[]]; try discriminate;
        now rewrite (IH _ _ H).
    + apply Z.ltb_ge in Hneg.
      destruct (Wants Ref wmgr (WRef w)) eqn:Hw.
      * rewrite decide_True by done. rewrite (IH _ _ H). cbn.
        now rewrite <- app_assoc.
      * rewrite decide_False by (intros [_ ?]; congruence). now rewrite (IH _ _ H).
Qed.

(** A want message that [Pour] goes through starts one fetch for each
    entry with a size (a value that is not negative) whose blob the local
    want manager wants, in the order of the message, and for no other. *)
Theorem Pour_fetches wmgr mIn proc proc' :
  Pour wmgr mIn proc = (proc', Ok tt) →
  fetching proc' = fetching proc ++ fetched wmgr mIn.
Proof.
  unfold blobstore.Pour.
  destruct (Pour_loop wmgr mIn proc ∅) as [proc1 [mOut|e]] eqn:Hl; [|discriminate].
  apply Pour_loop_fetching in Hl.
  destruct (size mOut =? 0)%nat; intros [= <-]; exact Hl.
Qed.

Lemma Pour_loop_fails wmgr mIn proc mOut :
  (∃ proc' mOut', Pour_loop wmgr mIn proc mOut = (proc', Ok mOut')) ∨
  (∃ proc' w cause,
     Pour_loop wmgr mIn proc mOut
     = (proc', Err (ErrWrap "error getting blob size" cause)) ∧
     w ∈ mIn ∧ (Dist w < 0)%Z ∧ IsValid (WRef w) ≠ Ok tt).
Proof.
  revert proc mOut. induction mIn as [|w rest IH]; intros proc mOut; cbn.
  - left. eauto.
  - assert (Hstep : ∀ proc1 mOut1,
      (∃ proc' mOut', Pour_loop wmgr rest proc1 mOut1 = (proc', Ok mOut')) ∨
      (∃ proc' w0 cause,
         Pour_loop wmgr rest proc1 mOut1
         = (proc', Err (ErrWrap "error getting blob size" cause)) ∧
         w0 ∈ w :: rest ∧ (Dist w0 < 0)%Z ∧ IsValid (WRef w0) ≠ Ok tt)).
    { intros proc1 mOut1.
      destruct (IH proc1 mOut1) as [?|(p' & w0 & c & ? & ? & ? & ?)]; [now left|].
      right. exists p', w0, c. repeat split; try done. now right. }
    destruct (Dist w <? 0)%Z eqn:Hneg.
    + apply Z.ltb_lt in Hneg.
      destruct (Size wmgr (WRef w)) as [sz|e] eqn:Hs; [apply Hstep|].
      destruct (Size_Err_cases _ _ _ Hs) as [[-> _]|[Hne Hinv]]; [apply Hstep|].
      right. exists proc, w, e.
      split; [now destruct e|]. split; [left|]. now split.
    + destruct (Wants Ref wmgr (WRef w)); apply Hstep.
Qed.


(** A want recorded by [Pour] is answered when the blob arrives: once
    [Put] has stored the blob, the change handler sends the peer
    [{ref: size}] for it. *)
Theorem want_then_put_is_answered wmgr mIn proc proc1 w env blob store' :
  NoDup (map (λ w, Ref (WRef w)) mIn) →
  Pour wmgr mIn proc = (proc1, Ok tt) →
  w ∈ mIn → (Dist w < 0)%Z → (∀ f, Get wmgr (WRef w) ≠ Ok f) →
  Put env blob wmgr = (store', Ok (WRef w)) →
  wantProc_onChange store' (mkNotification BlobStoreOpPut (WRef w)) proc1
  = (mkProc (remoteWants proc1)
            (out proc1 ++ [{[Ref (WRef w) := Z.of_nat (length (data blob))]}])
            (fetching proc1), Ok tt).
Proof.
  intros Hnd Hpour Hin Hneg Habs Hput.
  unfold blobstore.Pour in Hpour.
  destruct (Pour_loop wmgr mIn proc ∅) as [proc0 [mOut|e]] eqn:Hl; [|discriminate].
  assert (Hrw : remoteWants proc1 = remoteWants proc0).
  { destruct (size mOut =? 0)%nat; now injection Hpour as <-. }
  destruct (blobstore_facts.Pour_loop_entry Ref _ _ _ _ _ _ _ Hnd Hl Hin Hneg)
    as [(sz & Hs & _)|[_ Hr]].
  { apply blobstore_facts.Size_Ok in Hs as (f & Hg & _). now apply Habs in Hg. }
  apply Put_Ok_Get in Hput as [_ Hget].
  unfold blobstore_ops.wantProc_onChange. cbn [NRef].
  rewrite Hrw, Hr.
  assert (Hsz : Size store' (WRef w) = Ok (Z.of_nat (length (data blob)))).
  { apply blobstore_facts.Size_Ok. eauto. }
  rewrite Hsz. now rewrite <- Hrw.
Qed.

(** The change handler never alters [remoteWants], and sends nothing for a
    reference the peer did not ask for or whose blob cannot be sized (as
    after a removal, where it answers with an error). *)
Theorem onChange_silent bs notif proc :
  remoteWants (wantProc_onChange bs notif proc).1 = remoteWants proc
  ∧ (remoteWants proc !! Ref (NRef notif) = None →
     wantProc_onChange bs notif proc = (proc, Ok tt))
  ∧ ((∀ f, Get bs (NRef notif) ≠ Ok f) →
     (wantProc_onChange bs notif proc).1 = proc
     ∧ (is_Some (remoteWants proc !! Ref (NRef notif)) →
        ∃ e, (wantProc_onChange bs notif proc).2
             = Err (ErrWrap "error getting blob size" e))).
Proof.
  unfold blobstore_ops.wantProc_onChange.
  destruct (remoteWants proc !! Ref (NRef notif)) as [d|] eqn:Hr.
  - destruct (Size bs (NRef notif)) as [sz|e] eqn:Hs; cbn.
    + split; [reflexivity|]. split; [discriminate|]. intros Habs.
      apply blobstore_facts.Size_Ok in Hs as (f & Hg & _). now apply Habs in Hg.
    + split; [reflexivity|]. split; [discriminate|]. intros _.
      split; [reflexivity|]. eauto.
  - cbn. split; [reflexivity|]. split; [reflexivity|]. intros _.
    split; [reflexivity|]. intros [? [=]].
Qed.

End Store.


Lemma example_Put_eq :
  Put example_digest example_Ref example_env example_blob example_world
  = (example_world_put, Ok example_ref).
Proof.
  unfold example_world_put. rewrite <- blobstore_facts.example_Put_runs.
  apply surjective_pairing.
Qed.

Lemma Put_keeps_others_witness :
  Get example_world_put example_absent_ref = Get example_world example_absent_ref.
Proof.
  refine (Put_keeps_others example_digest example_Ref example_env example_blob
            example_world example_absent_ref _).
  vm_compute. discriminate.
Defined.

Lemma Put_notify_failure_witness :
  (Put example_digest example_Ref example_env_notify example_blob example_world).2
  = Err (ErrWrap "blobstore.Put: error in notification handler" (ErrMsg "sink closed")).
Proof.
  refine (proj1 (Put_notify_failure example_digest example_Ref example_env_notify
                   example_blob example_world (ErrMsg "sink closed") _ eq_refl eq_refl)).
  repeat split; try reflexivity; intros e; discriminate.
Defined.

Lemma Put_idempotent_witness :
  (Put example_digest example_Ref example_env example_blob example_world_put).2
  = Ok example_ref
  ∧ Get (Put example_digest example_Ref example_env example_blob example_world_put).1
        example_ref
    = Get example_world_put example_ref.
Proof.
  assert (H2 : (Put example_digest example_Ref example_env example_blob
                  example_world_put).2 = Ok example_ref) by (vm_compute; reflexivity).
  split; [exact H2|].
  assert (H : Put example_digest example_Ref example_env example_blob example_world_put
              = ((Put example_digest example_Ref example_env example_blob
                    example_world_put).1, Ok example_ref)).
  { rewrite <- H2. apply surjective_pairing. }
  exact (proj2 (Put_idempotent example_digest example_Ref _ _ _ _ _ _ _ _ _
                  eq_refl example_Put_eq H) example_ref).
Defined.


Lemma Delete_absent_witness :
  (Delete example_Ref None example_ref example_world).1 = example_world.
Proof.
  assert (H : Get example_world example_ref = Err ErrNoSuchBlob)
    by (vm_compute; reflexivity).
  exact (proj1 (Delete_absent example_Ref None example_ref example_world _ H)).
Defined.

Lemma Pour_fetches_witness :
  fetching (Pour example_Ref example_world_put example_msg example_proc).1
  = fetching example_proc ++ fetched example_Ref example_world_put example_msg.
Proof.
  assert (Hok : (Pour example_Ref example_world_put example_msg example_proc).2
                = Ok tt) by (vm_compute; reflexivity).
  assert (Hrun : Pour example_Ref example_world_put example_msg example_proc
                 = ((Pour example_Ref example_world_put example_msg example_proc).1,
                    Ok tt)).
  { rewrite <- Hok. apply surjective_pairing. }
  exact (Pour_fetches example_Ref _ _ _ _ Hrun).
Defined.

Lemma want_then_put_is_answered_witness :
  (wantProc_onChange example_Ref example_world_put
     (mkNotification BlobStoreOpPut example_ref) example_proc_waiting).2 = Ok tt.
Proof.
  assert (Hnd : NoDup (map (λ w, example_Ref (WRef w)) example_msg_want))
    by apply NoDup_singleton.
  assert (Hok : (Pour example_Ref example_world example_msg_want example_proc).2
                = Ok tt) by (vm_compute; reflexivity).
  assert (Hrun : Pour example_Ref example_world example_msg_want example_proc
                 = (example_proc_waiting, Ok tt)).
  { unfold example_proc_waiting. rewrite <- Hok. apply surjective_pairing. }
  assert (Hin : mkWant example_ref (-1)%Z ∈ example_msg_want) by left.
  assert (Habs : ∀ f, Get example_world (WRef (mkWant example_ref (-1)%Z)) ≠ Ok f)
    by (intros f; vm_compute; discriminate).
  exact (f_equal snd
           (want_then_put_is_answered example_digest example_Ref example_world
              example_msg_want example_proc example_proc_waiting
              (mkWant example_ref (-1)%Z) example_env example_blob example_world_put
              Hnd Hrun Hin eq_refl Habs example_Put_eq)).
Defined.

Lemma Put_succeeds_iff_witness :
  ∃ store' ref,
    Put example_digest example_Ref example_env example_blob example_world
    = (store', Ok ref).
Proof.
  refine (proj2 (Put_succeeds_iff example_digest example_Ref example_env
                   example_blob example_world) _).
  split; [|reflexivity].
  repeat split; try reflexivity; intros e; discriminate.
Defined.


End blobstore_more.

(** ** More on sbot/replicate.go *)

Module replicate_more.
Import replicate replicate_run.

Lemma Authorize_blocked l x : x ∈ blocked l → Authorize l x = Err (ErrMsg "peer blocked").
Proof. intros H. unfold Authorize, Has. now rewrite bool_decide_eq_true_2. Qed.

(** The imperative overrides, seen through [Authorize]: a feed that is
    blocked is denied as blocked even when it is wanted; [Replicate]
    authorises a feed exactly when it is not blocked; [DontReplicate]
    denies it; [Unblock] gives back what the wants say; and none of them
    changes the answer for another feed. *)
Theorem overrides_authorize l x y :
  Authorize (Block x l) x = Err (ErrMsg "peer blocked")
  ∧ (Authorize (Replicate x l) x = Ok tt ↔ x ∉ blocked l)
  ∧ Authorize (DontReplicate x l) x ≠ Ok tt
  ∧ (Authorize (Unblock x l) x = Ok tt ↔ x ∈ feedWants l)
  ∧ (y ≠ x →
     Authorize (Block x l) y = Authorize l y ∧
     Authorize (Unblock x l) y = Authorize l y ∧
     Authorize (Replicate x l) y = Authorize l y ∧
     Authorize (DontReplicate x l) y = Authorize l y).
Proof.
  split; [|split; [|split; [|split]]].
  - apply Authorize_blocked. cbn. unfold AddRef. set_solver.
  - rewrite replicate_facts.Authorize_Ok. cbn. unfold AddRef. set_solver.
  - rewrite replicate_facts.Authorize_Ok. cbn. unfold Delete. set_solver.
  - rewrite replicate_facts.Authorize_Ok. cbn. unfold Delete. set_solver.
  - intros Hne. unfold Authorize, Has, Block, Unblock, Replicate, DontReplicate,
      AddRef, Delete. cbn.
    assert (Hb1 : bool_decide (y ∈ ({[x]} ∪ blocked l)) = bool_decide (y ∈ blocked l))
      by (apply bool_decide_ext; set_solver).
    assert (Hb2 : bool_decide (y ∈ blocked l ∖ {[x]}) = bool_decide (y ∈ blocked l))
      by (apply bool_decide_ext; set_solver).
    assert (Hw1 : bool_decide (y ∈ ({[x]} ∪ feedWants l)) = bool_decide (y ∈ feedWants l))
      by (apply bool_decide_ext; set_solver).
    assert (Hw2 : bool_decide (y ∈ feedWants l ∖ {[x]}) = bool_decide (y ∈ feedWants l))
      by (apply bool_decide_ext; set_solver).
    now rewrite Hb1, Hb2, Hw1, Hw2.
Qed.

Lemma overrides_authorize_witness :
  Authorize (Block "@eve" newLister) "@bob" = Authorize newLister "@bob".
Proof.
  refine (proj1 (proj2 (proj2 (proj2 (proj2
            (overrides_authorize newLister "@eve" "@bob")))) _)).
  discriminate.
Defined.

(** A recomputation that finds the graph replaces the block list and
    re-adds the hop range: a manual [Block] or [DontReplicate] of a feed
    the graph follows and does not block is undone by it, while a manual
    [Replicate] of a feed outside the hop range is kept. *)
Theorem update_and_overrides builder self hopCount l g x :
  Build builder = Ok g →
  x ∉ BlockedList g self →
  (x ∈ Hops builder self hopCount →
     Authorize (update builder self hopCount (Block x l)) x = Ok tt ∧
     Authorize (update builder self hopCount (DontReplicate x l)) x = Ok tt)
  ∧ Authorize (update builder self hopCount (Replicate x l)) x = Ok tt.
Proof.
  intros Hg Hnb.
  assert (H : ∀ l', Authorize (update builder self hopCount l') x = Ok tt ↔
                    x ∈ feedWants l' ∨ x ∈ Hops builder self hopCount).
  { intros l'. rewrite replicate_facts.Authorize_Ok.
    destruct (replicate_facts.update_sets builder self hopCount l' g Hg) as [-> ->].
    set_solver. }
  split.
  - intros Hh. split; apply H; now right.
  - apply H. left. cbn. unfold AddRef. set_solver.
Qed.

(** Recomputing twice on the same graph is recomputing once, whether the
    graph builds or not. *)
Theorem update_idempotent builder self hopCount l :
  update builder self hopCount (update builder self hopCount l)
  = update builder self hopCount l.
Proof.
  assert (Heq : ∀ a b : lister,
            feedWants a = feedWants b → blocked a = blocked b → a = b).
  { intros [] []. cbn. now intros -> ->. }
  destruct (Build builder) as [g|e] eqn:Hg.
  - destruct (replicate_facts.update_sets builder self hopCount
                (update builder self hopCount l) g Hg) as [Hw Hb].
    destruct (replicate_facts.update_sets builder self hopCount l g Hg) as [Hw' Hb'].
    apply Heq; [|congruence]. rewrite Hw, Hw'. set_solver.
  - destruct (replicate_facts.update_build_failed builder self hopCount
                (update builder self hopCount l) e Hg) as [Hw Hb].
    destruct (replicate_facts.update_build_failed builder self hopCount l e Hg)
      as [Hw' Hb'].
    apply Heq; [|congruence]. rewrite Hw, Hw'. set_solver.
Qed.

(** *** The debounce loop *)

Section Debounce.

Variable interval : Z.
Variable work : lister → lister.

Local Abbreviation step := (debounce_step interval work).
Local Abbreviation run := (debounce_run interval work).

Lemma run_app evs1 evs2 st : run (evs1 ++ evs2) st = run evs2 (run evs1 st).
Proof. unfold debounce_run. apply fold_left_app. Qed.

(** The work is never done for nothing: as long as no event brings a
    sequence, timer or no timer, the state the work acts on stays as it
    was. *)
Theorem debounce_quiet evs st :
  seq st = SeqEmpty →
  Forall (λ ev, ¬ brings_seq ev) evs →
  current (run evs st) = current st ∧ seq (run evs st) = SeqEmpty.
Proof.
  intros Hs Hq. revert st Hs.
  induction Hq as [|ev evs Hev _ IH]; intros st Hs; [now split|].
  change (run (ev :: evs) st) with (run evs (step st ev)).
  assert (Hstep : current (step st ev) = current st ∧ seq (step st ev) = SeqEmpty).
  { destruct ev as [newSeq at_ns|]; cbn.
    - split; [reflexivity|]. cbn in Hev.
      destruct (decide (newSeq = SeqEmpty)); [assumption|contradiction].
    - destruct (timer st); [|now split]. now rewrite Hs. }
  destruct Hstep as [Hc Hs']. destruct (IH _ Hs') as [-> ->]. now split.
Qed.

(** However many values arrive before the timer fires, and however many
    times it fires after, the work is done exactly once, provided the last
    value seen is a sequence; only the last value and its time matter. *)
Theorem debounce_burst burst newSeq at_ns n st :
  newSeq ≠ SeqEmpty →
  Forall (λ ev, ev ≠ TimerFired) burst →
  run (burst ++ Observed newSeq at_ns :: replicate (S n) TimerFired) st
  = mkDebounce SeqEmpty None (work (current st)).
Proof.
  intros Hseq Hb. rewrite run_app.
  assert (Hcur : current (run burst st) = current st).
  { clear Hseq. revert st. induction Hb as [|ev evs Hev _ IH]; intros st; [reflexivity|].
    change (run (ev :: evs) st) with (run evs (step st ev)).
    rewrite IH. destruct ev; [reflexivity|contradiction]. }
  set (st1 := run burst st) in *.
  change (run (Observed newSeq at_ns :: replicate (S n) TimerFired) st1)
    with (run (replicate n TimerFired)
            (step (step st1 (Observed newSeq at_ns)) TimerFired)).
  assert (Hfire : step (step st1 (Observed newSeq at_ns)) TimerFired
                  = mkDebounce SeqEmpty None (work (current st))).
  { cbn. destruct (Z.eqb_spec newSeq SeqEmpty); [contradiction|]. now rewrite Hcur. }
  rewrite Hfire. clear Hfire.
  induction n as [|n IH]; [reflexivity|].
  change (replicate (S n) TimerFired) with (TimerFired :: replicate n TimerFired).
  change (run (TimerFired :: replicate n TimerFired)
            (mkDebounce SeqEmpty None (work (current st))))
    with (run (replicate n TimerFired)
            (step (mkDebounce SeqEmpty None (work (current st))) TimerFired)).
  exact IH.
Qed.

End Debounce.

Lemma update_and_overrides_witness :
  Authorize (update example_graph "@self" 2 (Replicate "@carol" newLister)) "@carol"
  = Ok tt.
Proof.
  refine (proj2 (update_and_overrides example_graph "@self" 2 newLister
                   (mkGraph (λ _, {["@eve"]})) "@carol" eq_refl _)).
  change ("@carol" ∉ ({["@eve"]} : gset string)).
  intros H. apply elem_of_singleton in H. discriminate H.
Defined.

Lemma debounce_quiet_witness :
  current (debounce_run updateInterval (update example_graph "@self" 2)
             [TimerFired; Observed SeqEmpty 5; TimerFired]
             (debounce_init updateInterval 0 newLister))
  = newLister.
Proof.
  refine (proj1 (debounce_quiet updateInterval (update example_graph "@self" 2)
                   [TimerFired; Observed SeqEmpty 5; TimerFired]
                   (debounce_init updateInterval 0 newLister) eq_refl _)).
  repeat constructor; cbn; tauto.
Defined.

Lemma debounce_burst_witness :
  debounce_run updateInterval (update example_graph "@self" 2)
    ([Observed 3 10; Observed 4 20] ++ Observed 5 30 :: replicate 2 TimerFired)
    (debounce_init updateInterval 0 newLister)
  = mkDebounce SeqEmpty None (update example_graph "@self" 2 newLister).
Proof.
  refine (debounce_burst updateInterval (update example_graph "@self" 2)
            [Observed 3 10; Observed 4 20] 5 30 1
            (debounce_init updateInterval 0 newLister) _ _).
  - discriminate.
  - repeat constructor; discriminate.
Defined.

End replicate_more.

(** ** Theorems: sbot/new.go *)

Module sbotnew_facts.
Import sbotnew.

(** [Close] does its work once: on a bot that was not closed, whatever it
    returned the first time it returns again, taking no further step, even
    if the parts that failed would now close.  The stores are closed only
    after the network and the indexes have shut down, and the first call
    returns no error exactly when every step it reached succeeded. *)
Theorem Close_once env1 env2 s :
  closed s = false → closeErr s = None →
  Close env2 (Close env1 s).1 = Close env1 s
  ∧ closed (Close env1 s).1 = true
  ∧ (ClosersClose ∈ steps (Close env1 s).1 → ClosersClose ∈ steps s ∨
       ((hasNetwork s = true → network_Close env1 = None) ∧ idxDone_Wait env1 = None))
  ∧ ((Close env1 s).2 = None ↔
       (hasNetwork s = true → network_Close env1 = None) ∧
       idxDone_Wait env1 = None ∧ closers_Close env1 = None).
Proof.
  intros Hc He. unfold Close at 2 3 4 5. rewrite Hc.
  destruct s as [c ce hn st]. cbn in Hc, He. subst c ce. cbn.
  destruct hn; cbn;
    destruct (network_Close env1) as [e1|];
    destruct (idxDone_Wait env1) as [e2|];
    destruct (closers_Close env1) as [e3|]; cbn;
    (split; [reflexivity|]; split; [reflexivity|]; split;
     [intros H; set_unfold; naive_solver|naive_solver]).
Qed.

Lemma Close_once_witness :
  Close (mkCloseEnv None None None)
    (Close (mkCloseEnv (Some (ErrMsg "use of closed network connection")) None None)
       (mkBot false None true [])).1
  = Close (mkCloseEnv (Some (ErrMsg "use of closed network connection")) None None)
      (mkBot false None true []).
Proof.
  exact (proj1 (Close_once _ _ (mkBot false None true []) eq_refl eq_refl)).
Defined.

Section Admission.

Variable Equal : FeedRef → FeedRef → bool.
Variable RefAlgoFeedGabby : string.

Local Abbreviation mkHandler := (mkHandler Equal RefAlgoFeedGabby).

(** The authorizer a connection is checked against. *)
Local Abbreviation authOf s :=
  (match authorizer s with Some a => a | None => ReplicatorLister s end).

(** The local identity always gets the master handler.  Any other remote
    never does: it gets the guest handler exactly when the invite service
    authorises it, and otherwise the public handler exactly when the bot is
    promiscuous, or the authorizer accepts the remote as it is or as a
    gabby feed, or no feed is stored yet (whatever the authorizer said, so
    also for a blocked peer).  When it is turned away the error is the one
    of the second attempt. *)
Theorem mkHandler_admission s inviteService remote :
  (Equal (KeyPairId s) remote = true →
     mkHandler s inviteService (Ok remote) = Ok MasterHandler)
  ∧ (Equal (KeyPairId s) remote = false →
     let invited := ∃ inv, inviteService = Some inv ∧ inv remote = Ok tt in
     let gabby := mkFeedRef (ID remote) RefAlgoFeedGabby in
     mkHandler s inviteService (Ok remote) ≠ Ok MasterHandler
     ∧ (mkHandler s inviteService (Ok remote) = Ok GuestHandler ↔ invited)
     ∧ (mkHandler s inviteService (Ok remote) = Ok PublicHandler ↔
          ¬ invited ∧
          (promisc s = true ∨ authOf s remote = Ok tt ∨ authOf s gabby = Ok tt
           ∨ UsersList s = Ok []))
     ∧ (∀ e, mkHandler s inviteService (Ok remote) = Err e →
             authOf s gabby = Err e)).
Proof.
  unfold sbotnew.mkHandler. split; [now intros ->|]. intros ->. cbv zeta.
  assert (Hinv : (∃ inv, inviteService = Some inv ∧ inv remote = Ok tt) ↔
                 match inviteService with
                 | Some inv => match inv remote with Ok _ => true | Err _ => false end
                 | None => false
                 end = true).
  { destruct inviteService as [inv|].
    - destruct (inv remote) as [[]|e] eqn:Hi.
      + split; [reflexivity|]. intros _. eauto.
      + split; [|discriminate]. intros (inv' & [= <-] & H). congruence.
    - split; [|discriminate]. now intros (inv' & [=] & _). }
  destruct (match inviteService with
            | Some inv => match inv remote with Ok _ => true | Err _ => false end
            | None => false
            end).
  { split; [discriminate|]. split; [split; [intros _; now apply Hinv|reflexivity]|].
    split; [|discriminate]. split; [discriminate|]. intros [Hn _].
    destruct Hn. now apply Hinv. }
  assert (Hni : ¬ ∃ inv, inviteService = Some inv ∧ inv remote = Ok tt).
  { intros H. apply Hinv in H. discriminate H. }
  destruct (promisc s).
  { split; [discriminate|]. split; [split; [discriminate|intros H; now destruct Hni]|].
    split; [|discriminate]. split; [now split; [|left]|reflexivity]. }
  destruct (authOf s remote) as [[]|e1].
  { split; [discriminate|]. split; [split; [discriminate|intros H; now destruct Hni]|].
    split; [|discriminate]. split; [split; [assumption|right; now left]|reflexivity]. }
  destruct (authOf s (mkFeedRef (ID remote) RefAlgoFeedGabby)) as [[]|e2].
  { split; [discriminate|]. split; [split; [discriminate|intros H; now destruct Hni]|].
    split; [|discriminate].
    split; [split; [assumption|right; right; now left]|reflexivity]. }
  destruct (UsersList s) as [[|u us]|e3].
  - split; [discriminate|]. split; [split; [discriminate|intros H; now destruct Hni]|].
    split; [|discriminate].
    split; [split; [assumption|right; right; now right]|reflexivity].
  - split; [discriminate|]. split; [split; [discriminate|intros H; now destruct Hni]|].
    split; [|now intros e [= <-]].
    split; [discriminate|]. intros [_ [H|[H|[H|H]]]]; discriminate H.
  - split; [discriminate|]. split; [split; [discriminate|intros H; now destruct Hni]|].
    split; [|now intros e [= <-]].
    split; [discriminate|]. intros [_ [H|[H|[H|H]]]]; discriminate H.
Qed.

End Admission.

Lemma mkHandler_admission_witness :
  mkHandler example_Equal "ggfeed-v1" example_bot None (Ok example_peer)
  ≠ Ok MasterHandler.
Proof.
  exact (proj1 (proj2 (mkHandler_admission example_Equal "ggfeed-v1" example_bot
                         None example_peer) eq_refl)).
Defined.

Example example_trust_on_first_use :
  mkHandler example_Equal "ggfeed-v1" example_bot None (Ok example_peer)
  = Ok PublicHandler.
Proof. reflexivity. Qed.

End sbotnew_facts.

(** ** Theorems: plugins/peerinvites *)

Module peerinvites_facts.
Import peerinvites.

Lemma invite_Authorize_Ok st to :
  Authorize st to = Ok tt ↔ st !! to = Some (VBool true).
Proof.
  unfold Authorize. destruct (st !! to) as [[[]|]|]; split; try discriminate; done.
Qed.

Section Index.

Variable decodeType : list byte → Result error string.
Variable decodeInvite : list byte → Result error (option FeedRef).
Variable decodeReceipt : list byte → Result error (option MessageRef).
Variable g_Get : MessageRef → Result error Message.

Local Abbreviation indexNewInvite := (indexNewInvite decodeInvite).
Local Abbreviation indexConfirm := (indexConfirm decodeInvite decodeReceipt g_Get).
Local Abbreviation updateIndex :=
  (updateIndex decodeType decodeInvite decodeReceipt g_Get).


(** A confirm that is indexed closes the invite its receipt points to: the
    invited guest is no longer authorised, its key can be invited again,
    and nobody else's authorisation changes. *)
Theorem indexConfirm_revokes msg st st' :
  indexConfirm msg st = (st', Ok tt) →
  ∃ receiptRef reciept guest,
    decodeReceipt (ContentBytes msg) = Ok (Some receiptRef)
    ∧ g_Get receiptRef = Ok reciept
    ∧ decodeInvite (ContentBytes reciept) = Ok (Some guest)
    ∧ Authorize st' guest = Err (ErrMsg "not for us")
    ∧ (indexNewInvite reciept st').2 = Ok tt
    ∧ ∀ other, other ≠ guest → Authorize st' other = Authorize st other.
Proof.
  unfold peerinvites.indexConfirm.
  destruct (decodeReceipt (ContentBytes msg)) as [[receiptRef|]|e0]; try discriminate.
  destruct (g_Get receiptRef) as [reciept|e1] eqn:Hg; try discriminate.
  destruct (decodeInvite (ContentBytes reciept)) as [[guest|]|e2] eqn:Hd;
    try discriminate.
  intros [= <-]. exists receiptRef, reciept, guest.
  repeat split; try done.
  - unfold Authorize. now rewrite lookup_insert_eq.
  - unfold peerinvites.indexNewInvite. now rewrite Hd, lookup_insert_eq.
  - intros other Hne. unfold Authorize. now rewrite lookup_insert_ne.
Qed.

(** The index only looks at invites and confirms: a message whose content
    does not decode, or whose type is another, is skipped with success and
    without a change; and whatever the message, the update never
    authorises a guest except by indexing an invite. *)
Theorem updateIndex_skips msg st :
  ((∀ ty, decodeType (ContentBytes msg) = Ok ty →
          ty ≠ "peer-invite" ∧ ty ≠ "peer-invite/confirm") →
     updateIndex (IsMessage msg) st = (st, Ok tt))
  ∧ (∀ to, Authorize (updateIndex (IsMessage msg) st).1 to = Ok tt →
       Authorize st to = Ok tt
       ∨ (decodeType (ContentBytes msg) = Ok "peer-invite"
          ∧ decodeInvite (ContentBytes msg) = Ok (Some to))).
Proof.
  unfold peerinvites.updateIndex.
  destruct (decodeType (ContentBytes msg)) as [ty|e0] eqn:Hty.
  - split.
    + intros H. destruct (H ty eq_refl) as [H1 H2].
      apply String.eqb_neq in H1, H2. now rewrite H1, H2.
    + intros to. destruct (String.eqb_spec ty "peer-invite") as [->|_].
      * unfold peerinvites.indexNewInvite.
        destruct (decodeInvite (ContentBytes msg)) as [[guest|]|e]; cbn; try tauto.
        destruct (st !! guest) as [[[]|]|] eqn:Hg; cbn; try tauto;
          (destruct (decide (to = guest)) as [->|Hne]; [now right|];
           unfold Authorize; rewrite lookup_insert_ne by done; tauto).
      * destruct (String.eqb_spec ty "peer-invite/confirm") as [->|_]; [|cbn; tauto].
        unfold peerinvites.indexConfirm.
        destruct (decodeReceipt (ContentBytes msg)) as [[receiptRef|]|e]; cbn; try tauto.
        destruct (g_Get receiptRef) as [reciept|e]; cbn; try tauto.
        destruct (decodeInvite (ContentBytes reciept)) as [[guest|]|e]; cbn; try tauto.
        destruct (decide (to = guest)) as [->|Hne].
        -- unfold Authorize at 1. now rewrite lookup_insert_eq.
        -- unfold Authorize. rewrite lookup_insert_ne by done. tauto.
  - split; [reflexivity|]. cbn. tauto.
Qed.

End Index.

Example example_invite_cycle :
  let st1 := (example_updateIndex (IsMessage (mkMessage [x01])) ∅).1 in
  let st2 := (example_updateIndex (IsMessage (mkMessage [x02])) st1).1 in
  Authorize st1 "@guest" = Ok tt
  ∧ (example_updateIndex (IsMessage (mkMessage [x01])) st1).2
    = Err (ErrMsg "invites: guest ID already in use")
  ∧ Authorize st2 "@guest" = Err (ErrMsg "not for us").
Proof. vm_compute. repeat split; reflexivity. Qed.


Lemma indexConfirm_revokes_witness :
  ∃ guest,
    Authorize
      (indexConfirm example_decodeInvite example_decodeReceipt example_g_Get
         (mkMessage [x02]) {["@guest" := VBool true]}).1 guest
    = Err (ErrMsg "not for us").
Proof.
  assert (Hok : (indexConfirm example_decodeInvite example_decodeReceipt example_g_Get
                   (mkMessage [x02]) {["@guest" := VBool true]}).2 = Ok tt)
    by (vm_compute; reflexivity).
  assert (H : indexConfirm example_decodeInvite example_decodeReceipt example_g_Get
                (mkMessage [x02]) {["@guest" := VBool true]}
              = ((indexConfirm example_decodeInvite example_decodeReceipt example_g_Get
                    (mkMessage [x02]) {["@guest" := VBool true]}).1, Ok tt)).
  { rewrite <- Hok. apply surjective_pairing. }
  destruct (indexConfirm_revokes _ _ _ _ _ _ H)
    as (receiptRef & reciept & guest & _ & _ & _ & Hdenied & _).
  exists guest. exact Hdenied.
Defined.

Lemma updateIndex_skips_witness :
  example_updateIndex (IsMessage (mkMessage [x03])) {["@guest" := VBool true]}
  = ({["@guest" := VBool true]}, Ok tt).
Proof.
  refine (proj1 (updateIndex_skips example_decodeType example_decodeInvite
                   example_decodeReceipt example_g_Get (mkMessage [x03])
                   {["@guest" := VBool true]}) _).
  intros ty [= <-]. split; discriminate.
Defined.

End peerinvites_facts.

(** ** More on multilogs/userfeeds.go *)

Module multilogs_more.
Import multilogs multilogs_run.

Section Feed.

Variable StoredAddr : FeedRef → string.

Local Abbreviation feed := (feed StoredAddr).
Local Abbreviation authored := (authored StoredAddr).
Local Abbreviation UserFeedsUpdate := (UserFeedsUpdate StoredAddr).

Lemma UserFeedsUpdate_Ok seq v mlog mlog' :
  UserFeedsUpdate seq v mlog = (mlog', Ok tt) →
  get_err mlog' = get_err mlog ∧ append_err mlog' = append_err mlog ∧
  ∀ addr, default [] (sublogs mlog' !! addr)
          = default [] (sublogs mlog !! addr) ++ authored addr [(seq, v)].
Proof.
  unfold multilogs.UserFeedsUpdate, multilogs_run.authored.
  destruct v as [e|m|ty]; cbn.
  - destruct (IsErrNulled e); [|discriminate]. intros [= <-].
    repeat split. intros addr. now rewrite app_nil_r.
  - destruct (Author m) as [a|]; [|discriminate].
    destruct (get_err mlog); [discriminate|].
    destruct (append_err mlog); [discriminate|].
    intros [= <-]. cbn. repeat split. intros addr.
    destruct (decide (StoredAddr a = addr)) as [<-|Hne]; cbn.
    + now rewrite lookup_insert_eq.
    + rewrite lookup_insert_ne by done. now rewrite app_nil_r.
  - discriminate.
Qed.

Lemma authored_cons addr entry entries :
  authored addr (entry :: entries) = authored addr [entry] ++ authored addr entries.
Proof.
  unfold multilogs_run.authored. cbn.
  destruct (entry.2) as [e|m|ty]; try reflexivity.
  destruct (Author m) as [a|]; [|reflexivity].
  now destruct (decide (StoredAddr a = addr)).
Qed.

(** Feeding a log to the index appends to each author's sublog the receive
    sequences of that author's messages, in the order of the log, and
    nothing else: a nulled entry adds nothing and shifts nothing. *)
Theorem feed_projects entries mlog mlog' :
  feed entries mlog = (mlog', Ok tt) →
  ∀ addr, default [] (sublogs mlog' !! addr)
          = default [] (sublogs mlog !! addr) ++ authored addr entries.
Proof.
  revert mlog. induction entries as [|[seq v] rest IH]; intros mlog H addr.
  - injection H as <-. unfold multilogs_run.authored. cbn. now rewrite app_nil_r.
  - cbn in H.
    destruct (UserFeedsUpdate seq v mlog) as [mlog1 [[]|e]] eqn:Hu; [|discriminate].
    apply UserFeedsUpdate_Ok in Hu as (_ & _ & Hu).
    rewrite (IH _ H addr), (Hu addr), (authored_cons addr (seq, v) rest).
    now rewrite app_assoc.
Qed.

(** With a multilog that opens and appends without error, a log made of
    nulled entries and of messages that have an author is indexed to its
    end. *)
Theorem feed_succeeds entries mlog :
  get_err mlog = None → append_err mlog = None →
  Forall (λ entry, acceptable entry.2) entries →
  (feed entries mlog).2 = Ok tt.
Proof.
  intros Hg Ha Hall. revert mlog Hg Ha.
  induction Hall as [|[seq v] rest Hv _ IH]; intros mlog Hg Ha; [reflexivity|].
  cbn.
  assert (Hok : ∃ mlog1, UserFeedsUpdate seq v mlog = (mlog1, Ok tt)).
  { unfold multilogs.UserFeedsUpdate. destruct v as [e|m|ty]; cbn in Hv.
    - rewrite Hv. eauto.
    - destruct Hv as [a ->]. rewrite Hg, Ha. eauto.
    - contradiction. }
  destruct Hok as [mlog1 Hok]. rewrite Hok.
  apply UserFeedsUpdate_Ok in Hok as (Hg1 & Ha1 & _).
  apply IH; congruence.
Qed.

End Feed.

Lemma feed_projects_witness :
  default [] (sublogs (feed (λ f, f) example_log (mkMultiLog ∅ None None)).1 !! "@alice")
  = [] ++ authored (λ f, f) "@alice" example_log.
Proof.
  assert (Hok : (feed (λ f, f) example_log (mkMultiLog ∅ None None)).2 = Ok tt)
    by (vm_compute; reflexivity).
  assert (H : feed (λ f, f) example_log (mkMultiLog ∅ None None)
              = ((feed (λ f, f) example_log (mkMultiLog ∅ None None)).1, Ok tt)).
  { rewrite <- Hok. apply surjective_pairing. }
  exact (feed_projects (λ f, f) _ _ _ H "@alice").
Defined.

Example example_log_authored : authored (λ f, f) "@alice" example_log = [0%Z; 2%Z].
Proof. vm_compute. reflexivity. Qed.

Lemma feed_succeeds_witness :
  (feed (λ f, f) example_log (mkMultiLog ∅ None None)).2 = Ok tt.
Proof.
  refine (feed_succeeds (λ f, f) example_log (mkMultiLog ∅ None None)
            eq_refl eq_refl _).
  repeat constructor; cbn; eauto.
Defined.

End multilogs_more.

(** ** More on message/legacy/types.go *)

Module legacy_more.
Import legacy.

Section Sign.

Variables (Content PrivateKey Signature : Type).
Variable json_Encode : anyMessage Content Signature → Result error (list byte).
Variable EncodePreserveOrder : list byte → Result error (list byte).
Variable InternalV8Binary : list byte → Result error (list byte).
Variable auth_Sum : list byte → list byte → list byte.
Variable ed25519_Sign : PrivateKey → list byte → list byte.
Variable EncodeSignature : list byte → Signature.
Variable sha256 : list byte → list byte.
Variable RefAlgoMessageSSB1 : string.

Local Abbreviation jsonAndPreserve :=
  (jsonAndPreserve Content Signature json_Encode EncodePreserveOrder).
Local Abbreviation Sign :=
  (Sign Content PrivateKey Signature json_Encode EncodePreserveOrder
        InternalV8Binary auth_Sum ed25519_Sign EncodeSignature sha256
        RefAlgoMessageSSB1).
Local Abbreviation signedBy msg priv pp hmacSecret :=
  (Signed Content Signature
     (mkSignedLegacyMessage Content Signature msg
        (EncodeSignature (ed25519_Sign priv (toBeSigned auth_Sum pp hmacSecret))))).


End Sign.


End legacy_more.

(** ** More on plugins2/names/getSignifier.go *)

Module names_more.
Import names.

Section GetSignifier.

Variable Request : Type.
Variable parseFeedRefFromArgs : Request → Result error FeedRef.
Variable CollectedFor : FeedRef → Result error AboutInfo.
Variable Ref : FeedRef → string.

Local Abbreviation HandleAsync :=
  (HandleAsync Request parseFeedRefFromArgs CollectedFor Ref).

(** Once the about record of the feed is found, [getSignifier] always
    answers: with the chosen name, or for want of one with a name somebody
    prescribed, or else with the feed reference; and the answer is never
    the empty string (unless the reference itself prints as empty). *)
Theorem HandleAsync_answer pick req ref ai :
  parseFeedRefFromArgs req = Ok ref →
  CollectedFor ref = Ok ai →
  ∃ name,
    HandleAsync pick req = Ok name
    ∧ (name = Chosen (Name ai)
       ∨ (Chosen (Name ai) = EmptyString
          ∧ (is_Some (Prescribed (Name ai) !! name) ∨ name = Ref ref)))
    ∧ (Ref ref ≠ EmptyString → name ≠ EmptyString).
Proof.
  intros Hp Hc. unfold names.HandleAsync. rewrite Hp, Hc.
  destruct (String.eqb_spec (Chosen (Name ai)) EmptyString) as [He|Hne].
  - rewrite He. unfold range_first.
    destruct (((map_to_list (Prescribed (Name ai))).*1) !! _) as [n|] eqn:Hk.
    + destruct (String.eqb_spec n EmptyString) as [->|Hn].
      * exists (Ref ref). split; [reflexivity|]. split; [right; split; [reflexivity|now right]|].
        tauto.
      * exists n. split; [reflexivity|]. split; [|tauto].
        right. split; [reflexivity|]. left.
        apply list_elem_of_lookup_2, list_elem_of_fmap in Hk as ([k v] & -> & Hin).
        apply elem_of_map_to_list in Hin. cbn. eauto.
    + cbn. exists (Ref ref). split; [reflexivity|].
      split; [right; split; [reflexivity|now right]|tauto].
  - exists (Chosen (Name ai)). split; [reflexivity|]. split; [now left|tauto].
Qed.

Lemma HandleAsync_returns pick req ref ai :
  parseFeedRefFromArgs req = Ok ref →
  CollectedFor ref = Ok ai →
  ∃ name, HandleAsync pick req = Ok name.
Proof.
  intros Hp Hc. unfold names.HandleAsync. rewrite Hp, Hc.
  destruct (String.eqb (Chosen (Name ai)) EmptyString); [|eauto].
  destruct (range_first pick (Prescribed (Name ai))) as [n|];
    [destruct (String.eqb n EmptyString)|destruct (String.eqb _ EmptyString)];
    eauto.
Qed.

(** [getSignifier] fails only when the argument does not parse, with the
    parser's error, or when the about store has no record for the feed,
    with that error wrapped. *)
Theorem HandleAsync_errors pick req e :
  HandleAsync pick req = Err e ↔
  parseFeedRefFromArgs req = Err e
  ∨ ∃ ref c, parseFeedRefFromArgs req = Ok ref ∧ CollectedFor ref = Err c
             ∧ e = ErrWrap "do not have about for" c.
Proof.
  destruct (parseFeedRefFromArgs req) as [ref|e0] eqn:Hp.
  - destruct (CollectedFor ref) as [ai|c] eqn:Hc.
    + destruct (HandleAsync_returns pick req ref ai Hp Hc) as (name & Hn).
      rewrite Hn. split; [discriminate|].
      intros [[=]|(ref' & c & [= <-] & H & _)]. congruence.
    + unfold names.HandleAsync. rewrite Hp, Hc. split.
      * intros [= <-]. right. eauto.
      * intros [[=]|(ref' & c' & [= <-] & H & ->)]. congruence.
  - unfold names.HandleAsync. rewrite Hp. split.
    + intros [= <-]. now left.
    + intros [[= <-]|(ref' & c & [=] & _)]. reflexivity.
Qed.

End GetSignifier.

Lemma HandleAsync_answer_witness : ∃ name, example_getSignifier 1 = Ok name.
Proof.
  destruct (HandleAsync_answer string (λ req, Ok req) (λ _, Ok example_about)
              (λ ref, ref) 1 "@alice" "@alice" example_about eq_refl eq_refl)
    as (name & Hn & _).
  exists name. exact Hn.
Defined.

Lemma HandleAsync_errors_witness :
  HandleAsync string (λ req, Ok req) (λ _, Err (ErrMsg "not found")) (λ ref, ref)
    0 "@alice"
  = Err (ErrWrap "do not have about for" (ErrMsg "not found")).
Proof.
  refine (proj2 (HandleAsync_errors string (λ req, Ok req)
                   (λ _, Err (ErrMsg "not found")) (λ ref, ref) 0 "@alice" _) _).
  right. eexists _, _. repeat split; reflexivity.
Defined.

End names_more.
